(** * Generic admission webhook: dispatch engine

    Shallow embedding of [plugin/pkg/admission/webhook/admission.go]:
    the [ErrCallingWebhook] error, [hookClient], [callHook] and the
    concurrent fan-out / join / aggregation of [Admit].

    The goroutines of [Admit] are modelled by an interleaving semantics:
    a deterministic step function that is told which thread moves next,
    so that a schedule (a list of thread identifiers) is one execution. *)

From Stdlib Require Import ZArith.
From stdpp Require Import base tactics option list strings.

Open Scope string_scope.
Open Scope list_scope.

(** ** Data model *)

(** [metav1.Status], the payload of a denial. *)
Record Status := mkStatus {
  StatusStatus : string;
  StatusMessage : string;
  StatusReason : string;
  StatusCode : Z
}.

(** Go's [error] interface, restricted to the dynamic types this file
    creates or receives: [*errors.errorString] (what [fmt.Errorf] builds),
    [*ErrCallingWebhook] and [*apierrors.StatusError].  A nil [error] is
    [None] of [option error]. *)
#[warnings="-register-all"]
Inductive error : Type :=
| ErrorString (msg : string)
| ErrCallingWebhook (WebhookName : string) (Reason : option error)
| StatusError (ErrStatus : Status).

(** Fallible calls of the collaborators: Go's [(value, err)] pairs. *)
Inductive result (T : Type) : Type :=
| Ok (v : T)
| Err (e : error).
Arguments Ok {T} v.
Arguments Err {T} e.

Inductive Operation := Create | Update | Delete | Connect.

(** [admission.Attributes], read-only for the duration of one check. *)
Record Attributes := mkAttributes {
  AttrGroup : string;
  AttrVersion : string;
  AttrResource : string;
  AttrSubresource : string;
  AttrNamespace : string;
  AttrName : string;
  AttrOperation : Operation;
  AttrUserInfo : string;
  AttrObject : string;
  AttrOldObject : string
}.

(** [admissionregistration.Rule] (with its operations). *)
Record Rule := mkRule {
  Operations : list string;
  APIGroups : list string;
  APIVersions : list string;
  Resources : list string
}.

Record ServiceReference := mkServiceReference {
  ServiceNamespace : string;
  ServiceName : string
}.

Record AdmissionHookClientConfig := mkClientConfig {
  Service : ServiceReference;
  CABundle : list Z
}.

(** [admissionregistration.ExternalAdmissionHook]. *)
Record ExternalAdmissionHook := mkHook {
  Name : string;
  Rules : list Rule;
  ClientConfig : AdmissionHookClientConfig
}.

(** The part of [url.URL] that [hookClient] reads. *)
Record URL := mkURL {
  Host : string;
  Path : string
}.

(** [rest.Config]: the fields [hookClient] sets; every other field of the
    Go struct keeps its zero value. *)
Record TLSClientConfig := mkTLS {
  CAData : list Z;
  CertData : list Z;
  KeyData : list Z
}.

Record ContentConfig := mkContentConfig {
  NegotiatedSerializer : string
}.

Record Config := mkConfig {
  CfgHost : string;
  CfgAPIPath : string;
  CfgTLSClientConfig : TLSClientConfig;
  CfgUserAgent : string;
  CfgTimeout : Z;
  CfgContentConfig : ContentConfig
}.

(** A [*rest.RESTClient] is opaque to this file; it is identified by the
    configuration it was built from. *)
Record RESTClient := mkRESTClient {
  ClientBase : Config
}.

(** [time.Duration] is an int64 count of nanoseconds. *)
Definition Second : Z := 1000000000.
Definition maxInt64 : Z := 9223372036854775807.

Record AdmissionReviewSpec := mkReviewSpec {
  SpecGroup : string;
  SpecVersion : string;
  SpecResource : string;
  SpecSubresource : string;
  SpecNamespace : string;
  SpecName : string;
  SpecOperation : Operation;
  SpecUserInfo : string;
  SpecObject : string;
  SpecOldObject : string
}.

Record AdmissionReviewStatus := mkReviewStatus {
  Allowed : bool;
  Result : option Status
}.

Record AdmissionReview := mkReview {
  ReviewSpec : AdmissionReviewSpec;
  ReviewStatus : AdmissionReviewStatus
}.

(** Modelled from the spec: [admissionv1alpha1.NewAdmissionReview] lives
    outside this file; the outbound review echoes the request attributes
    and carries the zero status. *)
Definition NewAdmissionReview (attr : Attributes) : AdmissionReview :=
  {| ReviewSpec :=
       {| SpecGroup := AttrGroup attr;
          SpecVersion := AttrVersion attr;
          SpecResource := AttrResource attr;
          SpecSubresource := AttrSubresource attr;
          SpecNamespace := AttrNamespace attr;
          SpecName := AttrName attr;
          SpecOperation := AttrOperation attr;
          SpecUserInfo := AttrUserInfo attr;
          SpecObject := AttrObject attr;
          SpecOldObject := AttrOldObject attr |};
     ReviewStatus := {| Allowed := false; Result := None |} |}.

(** [GenericAdmissionWebhook]: the two interface-typed fields are records
    of their one method. *)
Record WebhookSource := mkWebhookSource {
  List : result (list ExternalAdmissionHook)
}.

Record ServiceResolver := mkServiceResolver {
  ResolveEndpoint : string -> string -> result URL
}.

Record GenericAdmissionWebhook := mkPlugin {
  hookSource : WebhookSource;
  serviceResolver : ServiceResolver;
  negotiatedSerializer : string;
  clientCert : list Z;
  clientKey : list Z
}.

(** What a run does to the outside world, in program order. *)
Inductive Event :=
| EvList
| EvMatches (r : Rule)
| EvResolveEndpoint (ns name : string)
| EvRESTClientFor (cfg : Config)
| EvPost (c : RESTClient) (body : AdmissionReview)
| EvWarnFailedCalling (hook : string) (e : error)
| EvWarnRejected (hook : string) (e : error)
| EvHandleError (e : error).

(** The threads of one [Admit] call: the caller and one goroutine per
    index of the listed hooks. *)
Inductive Tid :=
| Main
| Go (i : nat).

(** Program counter of the caller of [Admit]. *)
Inductive MainPC :=
| MList
| MSpawn (i : nat)
| MWait
| MRet (r : option error).

(** Program counter of a goroutine: not started by [go] yet, about to run
    [callHook], blocked on or about to do [errCh <- err], returned (its
    deferred [wg.Done] has run). *)
Inductive TaskPC :=
| TIdle
| TCall
| TSend (e : error)
| TExit.

Record State := mkState {
  pc : MainPC;
  hooks : list ExternalAdmissionHook;
  errCh : list error;
  capCh : nat;
  wg : nat;
  tasks : list TaskPC;
  errs : list error;
  log : list Event
}.

(** ** The program *)

(** The code this file calls but does not define, as an interface:
    [strconv.Quote] (the [%q] verb of [fmt]), [RuleMatcher.Matches] of the
    same package (rules.go), [rest.UnversionedRESTClientFor], and one round
    trip [client.Post().Context(ctx).Body(&request).Do().Into(&request)],
    which gives the review as decoded from the answer or the transport
    error. *)
Class Externals := {
  quote : string -> string;
  Matches : Rule -> Attributes -> bool;
  UnversionedRESTClientFor : Config -> result RESTClient;
  Do : RESTClient -> AdmissionReview -> result AdmissionReview
}.

Section Webhook.

Context {W : Externals}.

(** [Error()] of the three error types; [%v] of an error prints this. *)
Fixpoint Error (e : error) : string :=
  match e with
  | ErrorString msg => msg
  | ErrCallingWebhook name (Some r) =>
      "failed calling admission webhook " +:+ quote name +:+ ": " +:+ Error r
  | ErrCallingWebhook name None =>
      "failed calling admission webhook " +:+ quote name +:+
      "; no further details available"
  | StatusError st => StatusMessage st
  end.

(** The type assertion of [err] to a pointer to [ErrCallingWebhook]. *)
Definition isErrCallingWebhook (e : error) : bool :=
  match e with
  | ErrCallingWebhook _ _ => true
  | _ => false
  end.

Variable a : GenericAdmissionWebhook.

Definition hookConfig (h : ExternalAdmissionHook) (u : URL) : Config :=
  {| CfgHost := Host u;
     CfgAPIPath := Path u;
     CfgTLSClientConfig :=
       {| CAData := CABundle (ClientConfig h);
          CertData := clientCert a;
          KeyData := clientKey a |};
     CfgUserAgent := "kube-apiserver-admission";
     CfgTimeout := (30 * Second)%Z;
     CfgContentConfig := {| NegotiatedSerializer := negotiatedSerializer a |} |}.

Definition hookClient (h : ExternalAdmissionHook)
  : result RESTClient * list Event :=
  let ns := ServiceNamespace (Service (ClientConfig h)) in
  let name := ServiceName (Service (ClientConfig h)) in
  match ResolveEndpoint (serviceResolver a) ns name with
  | Err err => (Err err, [EvResolveEndpoint ns name])
  | Ok u =>
      let cfg := hookConfig h u in
      (UnversionedRESTClientFor cfg,
       [EvResolveEndpoint ns name; EvRESTClientFor cfg])
  end.

(** The rule loop of [callHook], with its [break]: the flag [matches] and
    the evaluations of [Matches] it made. *)
Fixpoint matchRules (rs : list Rule) (attr : Attributes) : bool * list Event :=
  match rs with
  | [] => (false, [])
  | r :: rs' =>
      if Matches r attr then (true, [EvMatches r])
      else let '(m, tr) := matchRules rs' attr in (m, EvMatches r :: tr)
  end.

Definition callHook (h : ExternalAdmissionHook) (attr : Attributes)
  : option error * list Event :=
  let '(matches, tr0) := matchRules (Rules h) attr in
  if negb matches then (None, tr0)
  else
    let request := NewAdmissionReview attr in
    let '(client, tr1) := hookClient h in
    match client with
    | Err err => (Some (ErrCallingWebhook (Name h) (Some err)), tr0 ++ tr1)
    | Ok client =>
        match Do client request with
        | Err err =>
            (Some (ErrCallingWebhook (Name h) (Some err)),
             tr0 ++ tr1 ++ [EvPost client request])
        | Ok request' =>
            let tr := tr0 ++ tr1 ++ [EvPost client request] in
            if Allowed (ReviewStatus request') then (None, tr)
            else
              match Result (ReviewStatus request') with
              | None =>
                  (Some (ErrorString
                     ("admission webhook " +:+ quote (Name h) +:+
                      " denied the request without explanation")), tr)
              | Some st => (Some (StatusError st), tr)
              end
        end
    end.

(** *** Admit *)

Variable attr : Attributes.

(** The tail of [Admit], after [close(errCh)] and the draining loop:
    the first collected error is returned, the others are only handed to
    [utilruntime.HandleError]. *)
Definition aggregate (es : list error) : option error * list Event :=
  match es with
  | [] => (None, [])
  | e0 :: rest => (Some e0, map EvHandleError rest)
  end.

Definition addLog (tr : list Event) (s : State) : State :=
  {| pc := pc s; hooks := hooks s; errCh := errCh s; capCh := capCh s;
     wg := wg s; tasks := tasks s; errs := errs s; log := log s ++ tr |}.

Definition setPc (p : MainPC) (s : State) : State :=
  {| pc := p; hooks := hooks s; errCh := errCh s; capCh := capCh s;
     wg := wg s; tasks := tasks s; errs := errs s; log := log s |}.

Definition setTask (i : nat) (t : TaskPC) (s : State) : State :=
  {| pc := pc s; hooks := hooks s; errCh := errCh s; capCh := capCh s;
     wg := wg s; tasks := <[i:=t]> (tasks s); errs := errs s; log := log s |}.

(** [errCh <- e] on a channel with room. *)
Definition send (e : error) (s : State) : State :=
  {| pc := pc s; hooks := hooks s; errCh := errCh s ++ [e]; capCh := capCh s;
     wg := wg s; tasks := tasks s; errs := errs s; log := log s |}.

(** The goroutine returns and its deferred [wg.Done()] runs. *)
Definition exitTask (i : nat) (s : State) : State :=
  {| pc := pc s; hooks := hooks s; errCh := errCh s; capCh := capCh s;
     wg := wg s - 1; tasks := <[i:=TExit]> (tasks s); errs := errs s;
     log := log s |}.

Definition init : State :=
  {| pc := MList; hooks := []; errCh := []; capCh := 0; wg := 0;
     tasks := []; errs := []; log := [] |}.

(** One move of the caller: the listing with the allocation of the
    channel and of the wait group, one [go] statement, the end of the
    spawning loop, and [wg.Wait()] with everything after it. [wg.Wait()]
    blocks ([None]) while the counter is positive. *)
Definition stepMain (s : State) : option State :=
  match pc s with
  | MList =>
      match List (hookSource a) with
      | Err err =>
          Some (setPc (MRet (Some (ErrorString
                  ("failed listing hooks: " +:+ Error err))))
                  (addLog [EvList] s))
      | Ok hs =>
          Some {| pc := MSpawn 0; hooks := hs; errCh := [];
                  capCh := length hs; wg := length hs;
                  tasks := replicate (length hs) TIdle; errs := [];
                  log := log s ++ [EvList] |}
      end
  | MSpawn i =>
      if decide (i < length (hooks s))
      then Some (setPc (MSpawn (S i)) (setTask i TCall s))
      else Some (setPc MWait s)
  | MWait =>
      if decide (wg s = 0) then
        let es := errCh s in
        let '(r, tr) := aggregate es in
        Some {| pc := MRet r; hooks := hooks s; errCh := [];
                capCh := capCh s; wg := wg s; tasks := tasks s;
                errs := es; log := log s ++ tr |}
      else None
  | MRet _ => None
  end.

(** One move of the goroutine started for [hooks[i]]: the call of
    [callHook] with the classification of its result, or the send, which
    blocks ([None]) while the channel is full. *)
Definition stepGo (i : nat) (s : State) : option State :=
  match tasks s !! i with
  | Some TCall =>
      match hooks s !! i with
      | None => None
      | Some hook =>
          let '(err, tr) := callHook hook attr in
          match err with
          | None => Some (exitTask i (addLog tr s))
          | Some err =>
              if isErrCallingWebhook err then
                Some (exitTask i
                  (addLog (tr ++ [EvWarnFailedCalling (Name hook) err;
                                  EvHandleError err]) s))
              else
                Some (setTask i (TSend err)
                  (addLog (tr ++ [EvWarnRejected (Name hook) err]) s))
          end
      end
  | Some (TSend e) =>
      if decide (length (errCh s) < capCh s)
      then Some (exitTask i (send e s))
      else None
  | _ => None
  end.

Definition step (t : Tid) (s : State) : option State :=
  match t with
  | Main => stepMain s
  | Go i => stepGo i s
  end.

(** A schedule names the thread of every move; a move that is not
    possible makes the schedule invalid. *)
Fixpoint exec (sch : list Tid) (s : State) : option State :=
  match sch with
  | [] => Some s
  | t :: sch' =>
      match step t s with
      | Some s' => exec sch' s'
      | None => None
      end
  end.

(** What [Admit] returns under a schedule that runs it to its return. *)
Definition Admit (sch : list Tid) : option (option error) :=
  match exec sch init with
  | Some s => match pc s with MRet r => Some r | _ => None end
  | None => None
  end.

(** *** Notions the statements are written with *)

(** Some rule of the hook matches the request. *)
Definition applies (h : ExternalAdmissionHook) : bool :=
  existsb (fun r => Matches r attr) (Rules h).

(** The rules the loop of [callHook] evaluates: those up to and including the
    first one that matches. *)
Fixpoint examined (rs : list Rule) : list Rule :=
  match rs with
  | [] => []
  | r :: rs' => r :: (if Matches r attr then [] else examined rs')
  end.


(** What calling the hook's server gives: the error of the endpoint
    resolution, of the client construction or of the transport, or the
    decoded review. *)
Definition roundTrip (h : ExternalAdmissionHook) : result AdmissionReview :=
  match (hookClient h).1 with
  | Err e => Err e
  | Ok c => Do c (NewAdmissionReview attr)
  end.

(** What [callHook] returns, by cases on the rules and on the round trip. *)
Definition decision (h : ExternalAdmissionHook) : option error :=
  if applies h then
    match roundTrip h with
    | Err e => Some (ErrCallingWebhook (Name h) (Some e))
    | Ok r =>
        if Allowed (ReviewStatus r) then None
        else match Result (ReviewStatus r) with
             | None => Some (ErrorString
                 ("admission webhook " +:+ quote (Name h) +:+
                  " denied the request without explanation"))
             | Some st => Some (StatusError st)
             end
    end
  else None.

(** The events of the invoker part of [callHook], when it is reached. *)
Definition callTrace (h : ExternalAdmissionHook) : list Event :=
  if applies h then
    (hookClient h).2 ++
    match (hookClient h).1 with
    | Ok c => [EvPost c (NewAdmissionReview attr)]
    | Err _ => []
    end
  else [].

Definition callFails (h : ExternalAdmissionHook) : bool :=
  applies h && match roundTrip h with Err _ => true | Ok _ => false end.

Definition denies (h : ExternalAdmissionHook) : bool :=
  applies h &&
  match roundTrip h with
  | Ok r => negb (Allowed (ReviewStatus r))
  | Err _ => false
  end.

(** What the goroutine of a hook puts on the channel, if anything. *)
Definition rejection (h : ExternalAdmissionHook) : option error :=
  match (callHook h attr).1 with
  | Some e => if isErrCallingWebhook e then None else Some e
  | None => None
  end.

(** The rejections of a list of hooks, in the order of the list. *)
Definition rejections (hs : list ExternalAdmissionHook) : list error :=
  omap rejection hs.

Definition isExit (t : TaskPC) : bool :=
  match t with TExit => true | _ => false end.

(** Goroutines that have not returned: the value the wait group holds. *)
Fixpoint live (ts : list TaskPC) : nat :=
  match ts with
  | [] => 0
  | t :: ts' => (if isExit t then 0 else 1) + live ts'
  end.

(** The rejections of the hooks whose goroutine has returned. *)
Fixpoint sentOf (hs : list ExternalAdmissionHook) (ts : list TaskPC)
  : list error :=
  match hs, ts with
  | h :: hs', t :: ts' =>
      (if isExit t then option_list (rejection h) else []) ++ sentOf hs' ts'
  | _, _ => []
  end.

(** The errors collected so far: in the channel until it is drained, in
    the slice [errs] afterwards. *)
Definition collected (s : State) : list error :=
  match pc s with
  | MRet _ => errs s
  | _ => errCh s
  end.

(** Where the caller stands, against the goroutines: [go] has started
    exactly the goroutines below the loop index, and the caller is past
    [wg.Wait()] only when all of them have returned. *)
Definition pcOK (hs : list ExternalAdmissionHook) (p : MainPC)
  (ts : list TaskPC) (es : list error) : Prop :=
  match p with
  | MList => False
  | MSpawn k =>
      (forall i, k <= i -> i < length hs -> ts !! i = Some TIdle) /\
      (forall i, i < k -> ts !! i <> Some TIdle)
  | MWait => forall i, ts !! i <> Some TIdle
  | MRet r => live ts = 0 /\ r = head es
  end.

(** The state after a listing that gave [hs]. *)
Definition listed (hs : list ExternalAdmissionHook) : State :=
  {| pc := MSpawn 0; hooks := hs; errCh := []; capCh := length hs;
     wg := length hs; tasks := replicate (length hs) TIdle; errs := [];
     log := [EvList] |}.

(** What holds of every state of a run once the hooks [hs] are listed. *)
Record Inv (hs : list ExternalAdmissionHook) (s : State) : Prop := mkInv {
  inv_hooks : hooks s = hs;
  inv_cap : capCh s = length hs;
  inv_len : length (tasks s) = length hs;
  inv_wg : wg s = live (tasks s);
  inv_ch : collected s ≡ₚ sentOf hs (tasks s);
  inv_send : forall i e, tasks s !! i = Some (TSend e) ->
             exists h, hs !! i = Some h /\ rejection h = Some e;
  inv_pc : pcOK hs (pc s) (tasks s) (errs s);
  inv_slots : match pc s with MRet _ => errCh s = [] | _ => errs s = [] end
}.

(** Moves left, at most. *)
Definition taskMeasure (t : TaskPC) : nat :=
  match t with
  | TIdle => 3
  | TCall => 2
  | TSend _ => 1
  | TExit => 0
  end.

Definition measure (s : State) : nat :=
  match pc s with
  | MList => 3
  | MSpawn _ => 2
  | MWait => 1
  | MRet _ => 0
  end + sum_list (taskMeasure <$> tasks s).

End Webhook.

(** ** A concrete cluster, for evaluation *)

Module Demo.

(** Modelled from the spec: [RuleMatcher.Matches] is outside this file; a
    request matches a rule iff every dimension of the rule holds the
    wildcard or the request's value. *)
Definition exactOrWildcard (items : list string) (requested : string) : bool :=
  existsb (fun item => String.eqb item "*" || String.eqb item requested) items.

Definition opString (o : Operation) : string :=
  match o with
  | Create => "CREATE"
  | Update => "UPDATE"
  | Delete => "DELETE"
  | Connect => "CONNECT"
  end.

Definition demoMatches (r : Rule) (attr : Attributes) : bool :=
  exactOrWildcard (Operations r) (opString (AttrOperation attr)) &&
  exactOrWildcard (APIGroups r) (AttrGroup attr) &&
  exactOrWildcard (APIVersions r) (AttrVersion attr) &&
  exactOrWildcard (Resources r) (AttrResource attr).

(** [strconv.Quote] on names that need no escaping. *)
Definition dq : string := String (Ascii.ascii_of_nat 34) EmptyString.
Definition demoQuote (s : string) : string := dq +:+ s +:+ dq.

Definition anyRule : Rule :=
  {| Operations := ["*"]; APIGroups := ["*"]; APIVersions := ["*"];
     Resources := ["*"] |}.

Definition podsRule : Rule :=
  {| Operations := ["CREATE"]; APIGroups := [""]; APIVersions := ["v1"];
     Resources := ["pods"] |}.

Definition nodesRule : Rule :=
  {| Operations := ["DELETE"]; APIGroups := [""]; APIVersions := ["v1"];
     Resources := ["nodes"] |}.

Definition mkDemoHook (name : string) (rules : list Rule) : ExternalAdmissionHook :=
  {| Name := name; Rules := rules;
     ClientConfig := {| Service := {| ServiceNamespace := "default";
                                      ServiceName := name |};
                        CABundle := [48%Z; 130%Z] |} |}.

Definition createPod : Attributes :=
  {| AttrGroup := ""; AttrVersion := "v1"; AttrResource := "pods";
     AttrSubresource := ""; AttrNamespace := "default"; AttrName := "web";
     AttrOperation := Create; AttrUserInfo := "alice";
     AttrObject := "pod"; AttrOldObject := "" |}.

(** The resolver knows every service but [lost]. *)
Definition resolver : ServiceResolver :=
  {| ResolveEndpoint := fun ns name =>
       if String.eqb name "lost"
       then Err (ErrorString "no such service")
       else Ok {| Host := name +:+ "." +:+ ns +:+ ".svc"; Path := "/admit" |} |}.

(** Client construction fails for the host of [badtls]. *)
Definition demoClientFor (cfg : Config) : result RESTClient :=
  if String.eqb (CfgHost cfg) "badtls.default.svc"
  then Err (ErrorString "unable to load root certificates")
  else Ok {| ClientBase := cfg |}.

Definition quota : Status :=
  {| StatusStatus := "Failure"; StatusMessage := "quota exceeded";
     StatusReason := "Forbidden"; StatusCode := 403 |}.

Definition policy : Status :=
  {| StatusStatus := "Failure"; StatusMessage := "image not allowed";
     StatusReason := "Forbidden"; StatusCode := 403 |}.

(** The answers of the webhook servers, by host. *)
Definition demoDo (c : RESTClient) (body : AdmissionReview) : result AdmissionReview :=
  let host := CfgHost (ClientBase c) in
  let answer st := Ok {| ReviewSpec := ReviewSpec body; ReviewStatus := st |} in
  if String.eqb host "down.default.svc" then Err (ErrorString "connection refused")
  else if String.eqb host "quota.default.svc"
  then answer {| Allowed := false; Result := Some quota |}
  else if String.eqb host "policy.default.svc"
  then answer {| Allowed := false; Result := Some policy |}
  else if String.eqb host "mute.default.svc"
  then answer {| Allowed := false; Result := None |}
  else answer {| Allowed := true; Result := None |}.

Definition plugin (l : result (list ExternalAdmissionHook)) : GenericAdmissionWebhook :=
  {| hookSource := {| List := l |};
     serviceResolver := resolver;
     negotiatedSerializer := "admission.k8s.io/v1alpha1";
     clientCert := [1%Z; 2%Z];
     clientKey := [3%Z; 4%Z] |}.

Definition world : Externals :=
  {| quote := demoQuote; Matches := demoMatches;
     UnversionedRESTClientFor := demoClientFor; Do := demoDo |}.


Definition hQuota := mkDemoHook "quota" [anyRule].
Definition hPolicy := mkDemoHook "policy" [nodesRule; podsRule; anyRule].
Definition hDown := mkDemoHook "down" [anyRule].
Definition hOk := mkDemoHook "ok" [podsRule].
Definition hMute := mkDemoHook "mute" [anyRule].
Definition hLost := mkDemoHook "lost" [anyRule].
Definition hBadTLS := mkDemoHook "badtls" [anyRule].
Definition hQuotaNodes := mkDemoHook "quota" [nodesRule].

End Demo.

(** ** Wiring of the plugin *)



Definition SetWebhookSource (ws : WebhookSource)
  (a : GenericAdmissionWebhook) : GenericAdmissionWebhook :=
  {| hookSource := ws; serviceResolver := serviceResolver a;
     negotiatedSerializer := negotiatedSerializer a;
     clientCert := clientCert a; clientKey := clientKey a |}.

(** ** What a run writes to the log *)

Section Reporting.

Context {W : Externals} (a : GenericAdmissionWebhook) (attr : Attributes).

Definition isPost (ev : Event) : bool :=
  match ev with EvPost _ _ => true | _ => false end.

Fixpoint countPosts (tr : list Event) : nat :=
  match tr with
  | [] => 0
  | ev :: tr' => (if isPost ev then 1 else 0) + countPosts tr'
  end.

(** The hook is reached over the network: a rule matches and its client
    could be built. *)
Definition posts (h : ExternalAdmissionHook) : bool :=
  applies attr h &&
  match (hookClient a h).1 with Ok _ => true | Err _ => false end.

(** Everything the goroutine of a hook writes: the events of [callHook]
    and the warning that goes with its result. *)
Definition taskLog (h : ExternalAdmissionHook) : list Event :=
  let '(err, tr) := callHook a h attr in
  match err with
  | None => tr
  | Some e =>
      if isErrCallingWebhook e
      then tr ++ [EvWarnFailedCalling (Name h) e; EvHandleError e]
      else tr ++ [EvWarnRejected (Name h) e]
  end.

(** The goroutine is past its call of [callHook]. *)
Definition hasCalled (t : TaskPC) : bool :=
  match t with
  | TSend _ | TExit => true
  | TIdle | TCall => false
  end.

Fixpoint calledLog (hs : list ExternalAdmissionHook) (ts : list TaskPC)
  : list Event :=
  match hs, ts with
  | h :: hs', t :: ts' =>
      (if hasCalled t then taskLog h else []) ++ calledLog hs' ts'
  | _, _ => []
  end.

(** What the tail of [Admit] has handed to [HandleError]. *)
Definition aggregateLog (s : State) : list Event :=
  match pc s with
  | MRet _ => map EvHandleError (tail (errs s))
  | _ => []
  end.

(** The log of a state, up to the order in which the goroutines wrote. *)
Definition LogInv (hs : list ExternalAdmissionHook) (s : State) : Prop :=
  log s ≡ₚ EvList :: calledLog hs (tasks s) ++ aggregateLog s.

(** The results [Admit] can return for a list of rejections. *)
Definition possible (rej : list error) (r : option error) : Prop :=
  match r with
  | None => rej = []
  | Some e => e ∈ rej
  end.

End Reporting.

(** ** Properties *)

Section Proofs.

Context {W : Externals} (a : GenericAdmissionWebhook) (attr : Attributes).

Implicit Types (hs : list ExternalAdmissionHook) (ts : list TaskPC).
Implicit Types (h : ExternalAdmissionHook) (s : State) (sch : list Tid).

(** *** The rule loop and [callHook] *)

Lemma matchRules_fst (rs : list Rule) :
  (matchRules rs attr).1 = existsb (fun r => Matches r attr) rs.
Proof.
  induction rs as [|r rs IH]; simpl; [done|].
  destruct (Matches r attr); simpl; [done|].
  destruct (matchRules rs attr) as [m tr]. by simpl in *.
Qed.

Lemma matchRules_snd (rs : list Rule) :
  (matchRules rs attr).2 = EvMatches <$> examined attr rs.
Proof.
  induction rs as [|r rs IH]; simpl; [done|].
  destruct (Matches r attr); simpl; [done|].
  destruct (matchRules rs attr) as [m tr]. simpl in *. by rewrite IH.
Qed.


Lemma examined_prefix (rs : list Rule) : examined attr rs `prefix_of` rs.
Proof.
  induction rs as [|r rs IH]; simpl; [done|].
  destruct (Matches r attr).
  - by exists rs.
  - by apply prefix_cons.
Qed.

Lemma callHook_fst h : (callHook a h attr).1 = decision a attr h.
Proof.
  unfold callHook, decision, applies, roundTrip.
  rewrite <- matchRules_fst.
  destruct (matchRules (Rules h) attr) as [m tr0]; simpl.
  destruct m; simpl; [|done].
  destruct (hookClient a h) as [[c|e] tr1]; simpl; [|done].
  destruct (Do c (NewAdmissionReview attr)) as [r|e]; simpl; [|done].
  destruct (Allowed (ReviewStatus r)); [done|].
  by destruct (Result (ReviewStatus r)).
Qed.

(** *** Counting goroutines and what they have sent *)

Lemma live_insert_exit ts i t :
  ts !! i = Some t -> isExit t = false ->
  S (live (<[i:=TExit]> ts)) = live ts.
Proof.
  revert i. induction ts as [|t0 ts IH]; intros [|i] Hl Hx; simplify_eq/=.
  - by rewrite Hx.
  - rewrite <- (IH i) by done. destruct (isExit t0); lia.
Qed.

Lemma live_insert_same ts i t t' :
  ts !! i = Some t -> isExit t = false -> isExit t' = false ->
  live (<[i:=t']> ts) = live ts.
Proof.
  revert i. induction ts as [|t0 ts IH]; intros [|i] Hl Hx Hx'; simplify_eq/=.
  - by rewrite Hx, Hx'.
  - by rewrite (IH i).
Qed.

Lemma live_replicate n : live (replicate n TIdle) = n.
Proof. induction n as [|n IH]; simpl; [done|]. by rewrite IH. Qed.

Lemma live_zero_lookup ts i t : live ts = 0 -> ts !! i = Some t -> t = TExit.
Proof.
  revert i. induction ts as [|t0 ts IH]; intros [|i] H0 Hl; simplify_eq/=.
  - destruct t; simpl in H0; (done || lia).
  - apply (IH i); [|done]. destruct (isExit t0); lia.
Qed.

Lemma live_pos_lookup ts :
  0 < live ts -> exists i t, ts !! i = Some t /\ isExit t = false.
Proof.
  induction ts as [|t0 ts IH]; simpl; [lia|].
  destruct (isExit t0) eqn:Hx; intros Hpos.
  - destruct IH as (i & t & Hl & Ht); [lia|]. by exists (S i), t.
  - by exists 0, t0.
Qed.

Lemma sentOf_insert_exit hs ts i h t :
  hs !! i = Some h -> ts !! i = Some t -> isExit t = false ->
  sentOf a attr hs (<[i:=TExit]> ts)
  ≡ₚ option_list (rejection a attr h) ++ sentOf a attr hs ts.
Proof.
  revert ts i. induction hs as [|h0 hs IH]; intros [|t0 ts] [|i] Hh Hl Hx;
    simplify_eq/=.
  - by rewrite Hx.
  - rewrite (IH ts i) by done.
    rewrite !(assoc app). f_equiv. apply Permutation_app_comm.
Qed.

Lemma sentOf_insert_same hs ts i t t' :
  ts !! i = Some t -> isExit t = false -> isExit t' = false ->
  sentOf a attr hs (<[i:=t']> ts) = sentOf a attr hs ts.
Proof.
  revert ts i. induction hs as [|h0 hs IH]; intros [|t0 ts] [|i] Hl Hx Hx';
    simplify_eq/=; try done.
  - by rewrite Hx, Hx'.
  - by rewrite (IH ts i).
Qed.

Lemma sentOf_replicate hs n : sentOf a attr hs (replicate n TIdle) = [].
Proof.
  revert n. induction hs as [|h0 hs IH]; intros [|n]; simpl; try done.
Qed.

Lemma live_le_length ts : live ts <= length ts.
Proof. induction ts as [|t0 ts IH]; simpl; [done|]. destruct (isExit t0); lia. Qed.

Lemma sentOf_length hs ts :
  length (sentOf a attr hs ts) + live ts <= length ts.
Proof.
  revert ts. induction hs as [|h0 hs IH]; intros [|t0 ts]; simpl; try lia.
  { pose proof (live_le_length ts). destruct (isExit t0); lia. }
  specialize (IH ts).
  destruct (isExit t0); simpl; [|lia].
  destruct (rejection a attr h0); simpl; lia.
Qed.

Lemma sentOf_all_exit hs ts :
  length ts = length hs -> live ts = 0 ->
  sentOf a attr hs ts = rejections a attr hs.
Proof.
  revert ts. induction hs as [|h0 hs IH]; intros [|t0 ts] Hlen H0;
    simplify_eq/=; [done|].
  destruct (isExit t0); [|lia].
  rewrite (IH ts) by lia. unfold rejections. simpl.
  by destruct (rejection a attr h0).
Qed.

(** *** The invariant of a run *)

Lemma pcOK_insert hs p ts es i t t' :
  ts !! i = Some t -> t <> TIdle -> t' <> TIdle -> isExit t = false ->
  pcOK hs p ts es -> pcOK hs p (<[i:=t']> ts) es.
Proof.
  intros Hl Ht Ht' Hx. destruct p as [|k| |r]; simpl; [done| | |].
  - intros [Hidle Hrun]. split.
    + intros j Hkj Hj. rewrite list_lookup_insert_ne; [by apply Hidle|].
      intros ->. rewrite (Hidle j) in Hl by done. congruence.
    + intros j Hj [(-> & ? & _)|(_ & Hl')]%list_lookup_insert_Some;
        [congruence|]. by apply (Hrun j).
  - intros Hrun j [(-> & ? & _)|(_ & Hl')]%list_lookup_insert_Some;
      [congruence|]. by apply (Hrun j).
  - intros [H0 _]. rewrite (live_zero_lookup _ _ _ H0 Hl) in Hx. done.
Qed.

Lemma Inv_listed hs : Inv a attr hs (listed hs).
Proof.
  split; simpl; try done.
  - by rewrite length_replicate.
  - by rewrite live_replicate.
  - unfold collected; simpl. by rewrite sentOf_replicate.
  - intros i e [? _]%lookup_replicate. done.
  - split; [|lia]. intros i _ Hi. by apply lookup_replicate.
Qed.

(** While some goroutine has not returned the caller has not either. *)
Lemma Inv_running hs s i t :
  Inv a attr hs s -> tasks s !! i = Some t -> isExit t = false ->
  forall r, pc s <> MRet r.
Proof.
  intros HI Hl Hx r Hpc.
  pose proof (inv_pc _ _ _ _ HI) as Hp. rewrite Hpc in Hp.
  destruct Hp as [H0 _].
  rewrite (live_zero_lookup _ _ _ H0 Hl) in Hx. done.
Qed.

Lemma Inv_exit_quiet hs s i t h tr :
  Inv a attr hs s -> tasks s !! i = Some t -> t <> TIdle ->
  isExit t = false -> hs !! i = Some h -> rejection a attr h = None ->
  Inv a attr hs (exitTask i (addLog tr s)).
Proof.
  intros HI Hl Ht Hx Hh Hrej.
  pose proof (Inv_running _ _ _ _ HI Hl Hx) as Hcol.
  destruct HI as [Hhooks Hcap Hlen Hwg Hch Hsend Hpc Hslots].
  split; simpl; try done.
  - by rewrite length_insert.
  - rewrite Hwg, <- (live_insert_exit _ _ _ Hl Hx). lia.
  - rewrite (sentOf_insert_exit _ _ _ _ _ Hh Hl Hx), Hrej. simpl.
    rewrite <- Hch. unfold collected. simpl. done.
  - intros j e [(-> & ? & _)|(_ & Hl')]%list_lookup_insert_Some; [done|].
    by apply Hsend.
  - by eapply pcOK_insert.
Qed.

Lemma Inv_exit_send hs s i e :
  Inv a attr hs s -> tasks s !! i = Some (TSend e) ->
  Inv a attr hs (exitTask i (send e s)).
Proof.
  intros HI Hl.
  pose proof (Inv_running _ _ _ _ HI Hl eq_refl) as Hcol.
  destruct HI as [Hhooks Hcap Hlen Hwg Hch Hsend Hpc Hslots].
  destruct (Hsend _ _ Hl) as (h & Hh & Hrej).
  split; simpl; try done.
  - by rewrite length_insert.
  - rewrite Hwg, <- (live_insert_exit _ _ _ Hl eq_refl). lia.
  - rewrite (sentOf_insert_exit _ _ _ _ _ Hh Hl eq_refl), Hrej. simpl.
    rewrite <- Hch. unfold collected. simpl.
    destruct (pc s) as [|k| |r]; try by rewrite <- Permutation_cons_append.
    by destruct (Hcol r).
  - intros j e' [(-> & ? & _)|(_ & Hl')]%list_lookup_insert_Some; [done|].
    by apply Hsend.
  - by eapply pcOK_insert.
  - destruct (pc s) as [|k| |r]; try done. by destruct (Hcol r).
Qed.

Lemma Inv_to_send hs s i h e tr :
  Inv a attr hs s -> tasks s !! i = Some TCall -> hs !! i = Some h ->
  rejection a attr h = Some e ->
  Inv a attr hs (setTask i (TSend e) (addLog tr s)).
Proof.
  intros HI Hl Hh Hrej.
  destruct HI as [Hhooks Hcap Hlen Hwg Hch Hsend Hpc Hslots].
  split; simpl; try done.
  - by rewrite length_insert.
  - by rewrite (live_insert_same _ _ _ _ Hl).
  - by rewrite (sentOf_insert_same _ _ _ _ _ Hl).
  - intros j e' [(-> & ? & _)|(_ & Hl')]%list_lookup_insert_Some.
    + simplify_eq. by exists h.
    + by apply Hsend.
  - by eapply pcOK_insert.
Qed.

Lemma Inv_spawn hs s k :
  Inv a attr hs s -> pc s = MSpawn k -> k < length hs ->
  Inv a attr hs (setPc (MSpawn (S k)) (setTask k TCall s)).
Proof.
  intros HI Hpc Hk.
  destruct HI as [Hhooks Hcap Hlen Hwg Hch Hsend Hp Hslots].
  rewrite Hpc in Hp. destruct Hp as [Hidle Hrun].
  assert (tasks s !! k = Some TIdle) as Hl by (by apply Hidle).
  split; simpl; try done.
  - by rewrite length_insert.
  - by rewrite (live_insert_same _ _ _ _ Hl).
  - rewrite (sentOf_insert_same _ _ _ _ _ Hl) by done.
    rewrite <- Hch. unfold collected. simpl. by rewrite Hpc.
  - intros j e' [(-> & ? & _)|(_ & Hl')]%list_lookup_insert_Some; [done|].
    by apply Hsend.
  - split.
    + intros j Hkj Hj. rewrite list_lookup_insert_ne by lia.
      apply Hidle; lia.
    + intros j Hj [(-> & ? & _)|(Hne & Hl')]%list_lookup_insert_Some;
        [done|]. apply (Hrun j); [lia|done].
  - by rewrite Hpc in Hslots.
Qed.

Lemma Inv_step hs t s s' :
  Inv a attr hs s -> step a attr t s = Some s' -> Inv a attr hs s'.
Proof.
  intros HI Hstep. destruct t as [|i]; simpl in Hstep.
  - unfold stepMain in Hstep.
    destruct (pc s) as [|k| |r] eqn:Hpc.
    + pose proof (inv_pc _ _ _ _ HI) as Hp. by rewrite Hpc in Hp.
    + rewrite (inv_hooks _ _ _ _ HI) in Hstep. case_decide; simplify_eq.
      * by apply Inv_spawn.
      * destruct HI as [Hhooks Hcap Hlen Hwg Hch Hsend Hp Hslots].
        rewrite Hpc in Hp. destruct Hp as [Hidle Hrun].
        split; simpl; try done.
        { unfold collected in *. simpl. by rewrite Hpc in Hch. }
        { intros j Hj. destruct (decide (j < k)) as [Hlt|Hge].
          { by apply (Hrun j). }
          rewrite lookup_ge_None_2 in Hj by lia. done. }
        by rewrite Hpc in Hslots.
    + case_decide; [|done].
      destruct (aggregate (errCh s)) as [r tr] eqn:Hagg. simplify_eq.
      destruct HI as [Hhooks Hcap Hlen Hwg Hch Hsend Hp Hslots].
      split; simpl; try done.
      * unfold collected in *. simpl. by rewrite Hpc in Hch.
      * split; [congruence|].
        unfold aggregate in Hagg. destruct (errCh s); by simplify_eq.
    + done.
  - unfold stepGo in Hstep.
    destruct (tasks s !! i) as [[| |e|]|] eqn:Hl; try done.
    + rewrite (inv_hooks _ _ _ _ HI) in Hstep.
      destruct (hs !! i) as [h|] eqn:Hh; [|done].
      destruct (callHook a h attr) as [err tr] eqn:Hcall.
      assert (rejection a attr h =
              match err with
              | Some e => if isErrCallingWebhook e then None else Some e
              | None => None
              end) as Hrej by (unfold rejection; by rewrite Hcall).
      destruct err as [err|].
      * destruct (isErrCallingWebhook err); simplify_eq.
        { by eapply Inv_exit_quiet. }
        by eapply Inv_to_send.
      * simplify_eq. by eapply Inv_exit_quiet.
    + case_decide; simplify_eq. by apply Inv_exit_send.
Qed.

Lemma Inv_exec hs sch s s' :
  Inv a attr hs s -> exec a attr sch s = Some s' -> Inv a attr hs s'.
Proof.
  revert s. induction sch as [|t sch IH]; intros s HI Hex; simpl in Hex.
  - by simplify_eq.
  - destruct (step a attr t s) as [s1|] eqn:Hstep; [|done].
    eapply IH; [|done]. by eapply Inv_step.
Qed.

(** *** No blocked send, no deadlock, termination *)

Lemma live_lookup_pos ts i t :
  ts !! i = Some t -> isExit t = false -> 0 < live ts.
Proof.
  revert i. induction ts as [|t0 ts IH]; intros [|i] Hl Hx; simplify_eq/=.
  - rewrite Hx. lia.
  - specialize (IH i Hl Hx). lia.
Qed.

Lemma Inv_room hs s i t :
  Inv a attr hs s -> tasks s !! i = Some t -> isExit t = false ->
  length (errCh s) < capCh s.
Proof.
  intros HI Hl Hx.
  pose proof (Inv_running _ _ _ _ HI Hl Hx) as Hpc.
  pose proof (live_lookup_pos _ _ _ Hl Hx) as Hpos.
  pose proof (sentOf_length hs (tasks s)) as Hlen.
  destruct HI as [Hhooks Hcap Hlen' Hwg Hch Hsend Hp Hslots].
  assert (collected s = errCh s) as Hcol.
  { unfold collected. destruct (pc s) as [|k| |r]; try done. by destruct (Hpc r). }
  rewrite Hcol in Hch. rewrite Hch, Hcap. lia.
Qed.

Lemma stepGo_enabled hs s i t :
  Inv a attr hs s -> tasks s !! i = Some t -> t <> TIdle ->
  isExit t = false -> is_Some (stepGo a attr i s).
Proof.
  intros HI Hl Ht Hx. unfold stepGo. rewrite Hl.
  destruct t as [| |e|]; try done.
  - rewrite (inv_hooks _ _ _ _ HI).
    destruct (lookup_lt_is_Some_2 hs i) as [h Hh].
    { rewrite <- (inv_len _ _ _ _ HI). by eapply lookup_lt_Some. }
    rewrite Hh. destruct (callHook a h attr) as [[err|] tr]; [|done].
    by destruct (isErrCallingWebhook err).
  - rewrite decide_True; [done|]. by eapply Inv_room.
Qed.

Lemma progress hs s :
  Inv a attr hs s -> (forall r, pc s <> MRet r) ->
  exists t, is_Some (step a attr t s).
Proof.
  intros HI Hrun. destruct (pc s) as [|k| |r] eqn:Hpc.
  - pose proof (inv_pc _ _ _ _ HI) as Hp. by rewrite Hpc in Hp.
  - exists Main. simpl. unfold stepMain. rewrite Hpc. by case_decide.
  - destruct (decide (wg s = 0)) as [H0|Hpos].
    + exists Main. simpl. unfold stepMain. rewrite Hpc, decide_True by done.
      by destruct (aggregate (errCh s)).
    + rewrite (inv_wg _ _ _ _ HI) in Hpos.
      destruct (live_pos_lookup (tasks s)) as (i & t & Hl & Hx); [lia|].
      exists (Go i). simpl. eapply stepGo_enabled; try done.
      pose proof (inv_pc _ _ _ _ HI) as Hp. rewrite Hpc in Hp.
      intros ->. by apply (Hp i).
  - by destruct (Hrun r).
Qed.

Lemma measure_insert ts i t t' :
  ts !! i = Some t ->
  sum_list (taskMeasure <$> <[i:=t']> ts) + taskMeasure t
  = sum_list (taskMeasure <$> ts) + taskMeasure t'.
Proof.
  revert i. induction ts as [|t0 ts IH]; intros [|i] Hl; simplify_eq/=.
  - lia.
  - specialize (IH i Hl). lia.
Qed.

Lemma step_measure hs t s s' :
  Inv a attr hs s -> step a attr t s = Some s' -> measure s' < measure s.
Proof.
  intros HI Hstep. destruct t as [|i]; simpl in Hstep.
  - unfold stepMain in Hstep. unfold measure.
    destruct (pc s) as [|k| |r] eqn:Hpc.
    + pose proof (inv_pc _ _ _ _ HI) as Hp. by rewrite Hpc in Hp.
    + rewrite (inv_hooks _ _ _ _ HI) in Hstep. case_decide; simplify_eq/=.
      * pose proof (inv_pc _ _ _ _ HI) as Hp. rewrite Hpc in Hp.
        destruct Hp as [Hidle _].
        pose proof (measure_insert _ _ _ TCall (Hidle k (le_n k) H)) as Hm.
        simpl in Hm. lia.
      * lia.
    + case_decide; [|done].
      destruct (aggregate (errCh s)) as [r tr]. simplify_eq/=. lia.
    + done.
  - unfold stepGo in Hstep. unfold measure.
    destruct (tasks s !! i) as [[| |e|]|] eqn:Hl; try done.
    + destruct (hooks s !! i) as [h|]; [|done].
      destruct (callHook a h attr) as [[err|] tr].
      * destruct (isErrCallingWebhook err); simplify_eq/=.
        { pose proof (measure_insert _ _ _ TExit Hl) as Hm. simpl in Hm. lia. }
        pose proof (measure_insert _ _ _ (TSend err) Hl) as Hm. simpl in Hm. lia.
      * simplify_eq/=.
        pose proof (measure_insert _ _ _ TExit Hl) as Hm. simpl in Hm. lia.
    + case_decide; simplify_eq/=.
      pose proof (measure_insert _ _ _ TExit Hl) as Hm. simpl in Hm. lia.
Qed.

(** Every state of a run can be run to the return of [Admit]. *)
Lemma terminates hs s :
  Inv a attr hs s ->
  exists sch s' r, exec a attr sch s = Some s' /\ pc s' = MRet r.
Proof.
  remember (measure s) as n eqn:Hn. revert s Hn.
  induction (lt_wf n) as [n _ IH]. intros s -> HI.
  destruct (pc s) as [|k| |r] eqn:Hpc.
  4: { exists [], s, r. by split. }
  all: destruct (progress hs s HI) as (t & s1 & Hstep);
    [intros r; congruence|].
  all: destruct (IH (measure s1) (step_measure _ _ _ _ HI Hstep) s1 eq_refl)
    as (sch & s' & r & Hex & Hret); [by eapply Inv_step|].
  all: exists (t :: sch), s', r; simpl; by rewrite Hstep.
Qed.

(** A schedule is no longer than the measure allows. *)
Lemma exec_length hs sch s s' :
  Inv a attr hs s -> exec a attr sch s = Some s' ->
  length sch + measure s' <= measure s.
Proof.
  revert s. induction sch as [|t sch IH]; intros s HI Hex; simpl in Hex.
  - simplify_eq. simpl. lia.
  - destruct (step a attr t s) as [s1|] eqn:Hstep; [|done].
    pose proof (step_measure _ _ _ _ HI Hstep).
    specialize (IH s1 (Inv_step _ _ _ _ HI Hstep) Hex). simpl. lia.
Qed.

(** *** Runs of [Admit] from its first instruction *)

Lemma exec_app sch1 sch2 s :
  exec a attr (sch1 ++ sch2) s
  = match exec a attr sch1 s with
    | Some s1 => exec a attr sch2 s1
    | None => None
    end.
Proof.
  revert s. induction sch1 as [|t sch1 IH]; intros s; simpl; [done|].
  by destruct (step a attr t s).
Qed.

Lemma exec_init hs sch s :
  List (hookSource a) = Ok hs -> exec a attr sch init = Some s ->
  (sch = [] /\ s = init) \/
  (exists sch', sch = Main :: sch' /\ exec a attr sch' (listed hs) = Some s).
Proof.
  intros HL Hex. destruct sch as [|[|i] sch]; simpl in Hex.
  - left. by simplify_eq.
  - right. exists sch. split; [done|].
    unfold stepMain in Hex. simpl in Hex. by rewrite HL in Hex.
  - done.
Qed.

Lemma reachable_Inv hs sch s :
  List (hookSource a) = Ok hs -> exec a attr sch init = Some s ->
  s = init \/ Inv a attr hs s.
Proof.
  intros HL Hex.
  destruct (exec_init _ _ _ HL Hex) as [[_ ->]|(sch' & -> & Hex')]; [by left|].
  right. eapply Inv_exec; [apply Inv_listed|done].
Qed.

Lemma Admit_Some sch r :
  Admit a attr sch = Some r <->
  exists s, exec a attr sch init = Some s /\ pc s = MRet r.
Proof.
  unfold Admit. split.
  - destruct (exec a attr sch init) as [s|]; [|done].
    destruct (pc s) as [|k| |r'] eqn:Hpc; try done.
    intros ?; simplify_eq. by exists s.
  - intros (s & -> & ->). done.
Qed.

Lemma Admit_Inv hs sch r :
  List (hookSource a) = Ok hs -> Admit a attr sch = Some r ->
  exists s, exec a attr sch init = Some s /\ pc s = MRet r /\ Inv a attr hs s.
Proof.
  intros HL (s & Hex & Hpc)%Admit_Some. exists s. split_and!; try done.
  destruct (reachable_Inv _ _ _ HL Hex) as [->|HI]; done.
Qed.

(** The errors [Admit] has collected when it returns are the rejections of
    the listed hooks in some order, and it returns the first of them. *)
Lemma Admit_result hs sch r :
  List (hookSource a) = Ok hs -> Admit a attr sch = Some r ->
  exists es, es ≡ₚ rejections a attr hs /\ r = head es.
Proof.
  intros HL HA. destruct (Admit_Inv _ _ _ HL HA) as (s & Hex & Hpc & HI).
  exists (errs s).
  destruct HI as [Hhooks Hcap Hlen Hwg Hch Hsend Hp Hslots].
  rewrite Hpc in Hp. destruct Hp as [H0 ->].
  unfold collected in Hch. rewrite Hpc in Hch.
  by rewrite (sentOf_all_exit _ _ Hlen H0) in Hch.
Qed.

(** [Admit] does return, whatever the hooks answer. *)
Lemma Admit_total hs :
  List (hookSource a) = Ok hs -> exists sch r, Admit a attr sch = Some r.
Proof.
  intros HL.
  destruct (terminates hs (listed hs) (Inv_listed hs)) as (sch & s & r & Hex & Hpc).
  exists (Main :: sch), r. apply Admit_Some. exists s. split; [|done].
  simpl. unfold stepMain. simpl. by rewrite HL.
Qed.

Lemma sentOf_elem hs ts e :
  e ∈ sentOf a attr hs ts -> e ∈ rejections a attr hs.
Proof.
  revert ts. induction hs as [|h0 hs IH]; intros [|t0 ts]; simpl;
    try by intros ?%elem_of_nil.
  unfold rejections. simpl. fold (rejections a attr hs).
  intros [Hin|Hin]%elem_of_app.
  - destruct (isExit t0); [|by apply elem_of_nil in Hin].
    destruct (rejection a attr h0); [|by apply elem_of_nil in Hin].
    apply list_elem_of_singleton in Hin as ->. by left.
  - specialize (IH _ Hin). destruct (rejection a attr h0); [by right|done].
Qed.

Lemma rejections_elem hs e :
  e ∈ rejections a attr hs <->
  exists h, h ∈ hs /\ rejection a attr h = Some e.
Proof. unfold rejections. by rewrite list_elem_of_omap. Qed.

(** *** What a hook contributes, from what its server does *)

Lemma rejection_eq h :
  rejection a attr h =
  if applies attr h then
    match roundTrip a attr h with
    | Err _ => None
    | Ok r =>
        if Allowed (ReviewStatus r) then None
        else match Result (ReviewStatus r) with
             | None => Some (ErrorString
                 ("admission webhook " +:+ quote (Name h) +:+
                  " denied the request without explanation"))
             | Some st => Some (StatusError st)
             end
    end
  else None.
Proof.
  unfold rejection. rewrite callHook_fst. unfold decision.
  destruct (applies attr h); [|done].
  destruct (roundTrip a attr h) as [r|e]; [|done].
  destruct (Allowed (ReviewStatus r)); [done|].
  by destruct (Result (ReviewStatus r)).
Qed.

Lemma rejection_denies h :
  is_Some (rejection a attr h) <-> denies a attr h = true.
Proof.
  rewrite rejection_eq. unfold denies.
  destruct (applies attr h); simpl; [|by split; [intros [? ?]|]].
  destruct (roundTrip a attr h) as [r|e]; [|by split; [intros [? ?]|]].
  destruct (Allowed (ReviewStatus r)); simpl; [by split; [intros [? ?]|]|].
  destruct (Result (ReviewStatus r)); by split.
Qed.

Lemma rejection_not_denies h :
  denies a attr h = false -> rejection a attr h = None.
Proof.
  intros Hd. destruct (rejection a attr h) as [e|] eqn:Hr; [|done].
  assert (denies a attr h = true) by (apply rejection_denies; by rewrite Hr).
  congruence.
Qed.

Lemma rejection_not_call_error h e :
  rejection a attr h = Some e -> isErrCallingWebhook e = false.
Proof.
  unfold rejection. destruct (callHook a h attr).1 as [e'|]; [|done].
  destruct (isErrCallingWebhook e') eqn:He; [done|]. by intros [= <-].
Qed.

Lemma rejections_nil hs :
  existsb (denies a attr) hs = false -> rejections a attr hs = [].
Proof.
  induction hs as [|h hs IH]; simpl; [done|].
  intros [Hd Hrest]%orb_false_iff. unfold rejections. simpl.
  rewrite (rejection_not_denies _ Hd). by apply IH.
Qed.

Lemma callHook_snd h :
  (callHook a h attr).2
  = (EvMatches <$> examined attr (Rules h)) ++ callTrace a attr h.
Proof.
  unfold callHook, callTrace, applies.
  rewrite <- matchRules_fst, <- matchRules_snd.
  destruct (matchRules (Rules h) attr) as [m tr0]; simpl.
  destruct m; simpl; [|by rewrite app_nil_r].
  destruct (hookClient a h) as [[c|e] tr1]; simpl.
  - destruct (Do c (NewAdmissionReview attr)) as [r|e]; simpl; [|done].
    destruct (Allowed (ReviewStatus r)); [done|].
    by destruct (Result (ReviewStatus r)).
  - by rewrite app_nil_r.
Qed.


Lemma applies_true h :
  applies attr h = true <-> exists r, r ∈ Rules h /\ Matches r attr = true.
Proof.
  unfold applies. rewrite existsb_exists.
  split; intros (r & Hin & Hm); exists r; split; try done;
    by apply list_elem_of_In.
Qed.



(** C8: for a hook whose endpoint resolves, the client of the call is
    built by [rest.UnversionedRESTClientFor] from a configuration with
    exactly the host and path of the resolved endpoint, the hook's CA
    bundle, the plugin's client certificate and key, the user agent
    [kube-apiserver-admission] and a timeout of 30 seconds (with the
    plugin's serializer); the request of [callHook] is posted through that
    client. *)
Theorem hookClient_config h u :
  ResolveEndpoint (serviceResolver a)
    (ServiceNamespace (Service (ClientConfig h)))
    (ServiceName (Service (ClientConfig h))) = Ok u ->
  hookConfig a h u
  = {| CfgHost := Host u;
       CfgAPIPath := Path u;
       CfgTLSClientConfig :=
         {| CAData := CABundle (ClientConfig h);
            CertData := clientCert a;
            KeyData := clientKey a |};
       CfgUserAgent := "kube-apiserver-admission";
       CfgTimeout := 30000000000;
       CfgContentConfig :=
         {| NegotiatedSerializer := negotiatedSerializer a |} |} /\
  (CfgTimeout (hookConfig a h u) = 30 * Second /\
   0 < CfgTimeout (hookConfig a h u) <= maxInt64)%Z /\
  hookClient a h
  = (UnversionedRESTClientFor (hookConfig a h u),
     [EvResolveEndpoint (ServiceNamespace (Service (ClientConfig h)))
                        (ServiceName (Service (ClientConfig h)));
      EvRESTClientFor (hookConfig a h u)]) /\
  (forall c body,
     EvPost c body ∈ (callHook a h attr).2 ->
     UnversionedRESTClientFor (hookConfig a h u) = Ok c /\
     body = NewAdmissionReview attr).
Proof.
  intros Hres.
  assert (hookClient a h
          = (UnversionedRESTClientFor (hookConfig a h u),
             [EvResolveEndpoint (ServiceNamespace (Service (ClientConfig h)))
                                (ServiceName (Service (ClientConfig h)));
              EvRESTClientFor (hookConfig a h u)])) as Hclient.
  { unfold hookClient. by rewrite Hres. }
  split_and!; try done.
  intros c body. rewrite callHook_snd.
  intros [Hin|Hin]%elem_of_app.
  { apply list_elem_of_fmap in Hin as (r & ? & _). done. }
  unfold callTrace in Hin. destruct (applies attr h); [|by apply elem_of_nil in Hin].
  rewrite Hclient in Hin. simpl in Hin.
  destruct (UnversionedRESTClientFor (hookConfig a h u)) as [c'|e].
  - repeat (apply elem_of_cons in Hin as [Hin|Hin]; [by simplify_eq|]).
    by apply elem_of_nil in Hin.
  - repeat (apply elem_of_cons in Hin as [Hin|Hin]; [by simplify_eq|]).
    by apply elem_of_nil in Hin.
Qed.

(** *** The decision of [Admit] *)

Lemma Admit_rejects hs h e sch r :
  List (hookSource a) = Ok hs -> h ∈ hs -> rejection a attr h = Some e ->
  Admit a attr sch = Some r ->
  exists e', r = Some e' /\ e' ∈ rejections a attr hs.
Proof.
  intros HL Hin Hrej HA.
  destruct (Admit_result _ _ _ HL HA) as (es & Hperm & ->).
  assert (e ∈ es) as He.
  { rewrite Hperm. apply rejections_elem. by exists h. }
  destruct es as [|e' es]; [by apply elem_of_nil in He|].
  exists e'. split; [done|]. rewrite <- Hperm. by left.
Qed.

Lemma Admit_admits hs sch r :
  List (hookSource a) = Ok hs -> existsb (denies a attr) hs = false ->
  Admit a attr sch = Some r -> r = None.
Proof.
  intros HL Hnone HA.
  destruct (Admit_result _ _ _ HL HA) as (es & Hperm & ->).
  rewrite (rejections_nil _ Hnone) in Hperm.
  by apply Permutation_nil_r in Hperm as ->.
Qed.

(** C4: when the review of a matching hook comes back with
    [Allowed = false] and no [Result], [callHook] returns the generic error
    that names the hook and says it denied the request without
    explanation; that error is neither an [ErrCallingWebhook] nor a
    [StatusError], it is sent on the channel, and [Admit] returns, always
    with a non-nil error. *)
Theorem callHook_denied_without_explanation hs i h rv :
  List (hookSource a) = Ok hs -> hs !! i = Some h ->
  applies attr h = true -> roundTrip a attr h = Ok rv ->
  Allowed (ReviewStatus rv) = false -> Result (ReviewStatus rv) = None ->
  (callHook a h attr).1
  = Some (ErrorString ("admission webhook " +:+ quote (Name h) +:+
                       " denied the request without explanation")) /\
  rejection a attr h
  = Some (ErrorString ("admission webhook " +:+ quote (Name h) +:+
                       " denied the request without explanation")) /\
  (forall e, (callHook a h attr).1 = Some e ->
     isErrCallingWebhook e = false /\ forall st, e <> StatusError st) /\
  (exists sch e, Admit a attr sch = Some (Some e)) /\
  (forall sch r, Admit a attr sch = Some r -> exists e, r = Some e).
Proof.
  intros HL Hh Happ Hrt Hall Hres.
  assert (h ∈ hs) as Hin by (apply list_elem_of_lookup; eauto).
  assert ((callHook a h attr).1
          = Some (ErrorString ("admission webhook " +:+ quote (Name h) +:+
                               " denied the request without explanation")))
    as Hcall.
  { rewrite callHook_fst. unfold decision. by rewrite Happ, Hrt, Hall, Hres. }
  assert (rejection a attr h
          = Some (ErrorString ("admission webhook " +:+ quote (Name h) +:+
                               " denied the request without explanation")))
    as Hrej.
  { rewrite rejection_eq. by rewrite Happ, Hrt, Hall, Hres. }
  assert (forall sch r, Admit a attr sch = Some r -> exists e, r = Some e)
    as Hall_runs.
  { intros sch r HA.
    destruct (Admit_rejects _ _ _ _ _ HL Hin Hrej HA) as (e & -> & _).
    by exists e. }
  split_and!; try done.
  - intros e. rewrite Hcall. intros [= <-]. done.
  - destruct (Admit_total _ HL) as (sch & r & HA).
    destruct (Hall_runs _ _ HA) as (e & ->). by exists sch, e.
Qed.

(** C9: [callHook] returns nil both when no rule of the hook matches and
    when the hook allows the request, and returns an error only for a
    failed call or a denial; on a nil result the goroutine returns without
    logging or sending, so the hook adds nothing to what [Admit]
    aggregates, whichever of the two it was. *)
Theorem callHook_nil_not_applicable_or_allowed h :
  (applies attr h = false -> (callHook a h attr).1 = None) /\
  (forall rv, applies attr h = true -> roundTrip a attr h = Ok rv ->
     Allowed (ReviewStatus rv) = true -> (callHook a h attr).1 = None) /\
  ((callHook a h attr).1 <> None <->
     callFails a attr h = true \/ denies a attr h = true) /\
  (forall s i, tasks s !! i = Some TCall -> hooks s !! i = Some h ->
     (callHook a h attr).1 = None ->
     stepGo a attr i s = Some (exitTask i (addLog (callHook a h attr).2 s))) /\
  (forall hs1 hs2, (callHook a h attr).1 = None ->
     rejections a attr (hs1 ++ h :: hs2) = rejections a attr (hs1 ++ hs2)).
Proof.
  split_and!.
  - intros Happ. rewrite callHook_fst. unfold decision. by rewrite Happ.
  - intros rv Happ Hrt Hall. rewrite callHook_fst. unfold decision.
    by rewrite Happ, Hrt, Hall.
  - rewrite callHook_fst. unfold decision, callFails, denies.
    destruct (applies attr h); simpl; [|by intuition].
    destruct (roundTrip a attr h) as [r|e]; [|by intuition].
    destruct (Allowed (ReviewStatus r)); simpl; [by intuition|].
    destruct (Result (ReviewStatus r)); by intuition.
  - intros s i Ht Hh Hnil. unfold stepGo. rewrite Ht, Hh.
    destruct (callHook a h attr) as [err tr]. simpl in *. by subst err.
  - intros hs1 hs2 Hnil. unfold rejections.
    rewrite !omap_app. simpl. unfold rejection at 2. by rewrite Hnil.
Qed.

Lemma step_MRet_no_tasks t s r :
  pc s = MRet r -> tasks s = [] -> step a attr t s = None.
Proof.
  intros Hpc Hts. destruct t as [|i]; simpl.
  - unfold stepMain. by rewrite Hpc.
  - unfold stepGo. by rewrite Hts.
Qed.

(** C6: when the listing of the hook source fails, the first move of the
    caller returns the listing error wrapped in [failed listing hooks];
    there is no other run: no goroutine is started, no rule is evaluated
    and no webhook is called. *)
Theorem Admit_list_error err :
  List (hookSource a) = Err err ->
  Admit a attr [Main]
  = Some (Some (ErrorString ("failed listing hooks: " +:+ Error err))) /\
  (forall sch r, Admit a attr sch = Some r ->
     sch = [Main] /\
     r = Some (ErrorString ("failed listing hooks: " +:+ Error err))) /\
  (forall sch s, exec a attr sch init = Some s ->
     tasks s = [] /\ errCh s = [] /\ (log s = [] \/ log s = [EvList])).
Proof.
  intros HL.
  assert (forall sch s, exec a attr sch init = Some s ->
            (sch = [] /\ s = init) \/
            (sch = [Main] /\
             s = setPc (MRet (Some (ErrorString
                   ("failed listing hooks: " +:+ Error err))))
                   (addLog [EvList] init))) as Hruns.
  { intros sch s Hex. destruct sch as [|[|i] sch]; simpl in Hex.
    - left. by simplify_eq.
    - right. unfold stepMain in Hex. simpl in Hex. rewrite HL in Hex.
      destruct sch as [|t sch]; simpl in Hex; [by simplify_eq|].
      erewrite step_MRet_no_tasks in Hex; [done|reflexivity|reflexivity].
    - done. }
  split_and!.
  - unfold Admit. simpl. unfold stepMain. simpl. by rewrite HL.
  - intros sch r (s & Hex & Hpc)%Admit_Some.
    destruct (Hruns _ _ Hex) as [[-> ->]|[-> ->]]; simpl in Hpc; [done|].
    by simplify_eq.
  - intros sch s Hex.
    destruct (Hruns _ _ Hex) as [[-> ->]|[-> ->]]; simpl; auto.
Qed.

Lemma Inv_slots_collected hs s :
  Inv a attr hs s -> errCh s ++ errs s = collected s.
Proof.
  intros HI. pose proof (inv_slots _ _ _ _ HI) as Hs. unfold collected.
  destruct (pc s); rewrite Hs; by rewrite ?app_nil_r.
Qed.

Lemma roundTrip_Err h e :
  ResolveEndpoint (serviceResolver a)
    (ServiceNamespace (Service (ClientConfig h)))
    (ServiceName (Service (ClientConfig h))) = Err e \/
  (exists u,
     ResolveEndpoint (serviceResolver a)
       (ServiceNamespace (Service (ClientConfig h)))
       (ServiceName (Service (ClientConfig h))) = Ok u /\
     (UnversionedRESTClientFor (hookConfig a h u) = Err e \/
      exists c, UnversionedRESTClientFor (hookConfig a h u) = Ok c /\
                Do c (NewAdmissionReview attr) = Err e)) ->
  roundTrip a attr h = Err e.
Proof.
  unfold roundTrip, hookClient.
  intros [H|(u & Hu & [H|(c & Hc & H)])].
  - by rewrite H.
  - by rewrite Hu; simpl; rewrite H.
  - by rewrite Hu; simpl; rewrite Hc.

Qed.

(** C2: a call that fails at the infrastructure level (the endpoint does
    not resolve, the client cannot be built, or the transport fails) makes
    [callHook] return an [ErrCallingWebhook], which the goroutine logs and
    does not send; no error that [Admit] collects is of that type or comes
    from a hook whose call failed; and when no listed hook denies the
    request, [Admit] returns, and returns nil. *)
Theorem Admit_fail_open hs :
  List (hookSource a) = Ok hs ->
  (forall h e,
     applies attr h = true ->
     ResolveEndpoint (serviceResolver a)
       (ServiceNamespace (Service (ClientConfig h)))
       (ServiceName (Service (ClientConfig h))) = Err e \/
     (exists u,
        ResolveEndpoint (serviceResolver a)
          (ServiceNamespace (Service (ClientConfig h)))
          (ServiceName (Service (ClientConfig h))) = Ok u /\
        (UnversionedRESTClientFor (hookConfig a h u) = Err e \/
         exists c, UnversionedRESTClientFor (hookConfig a h u) = Ok c /\
                   Do c (NewAdmissionReview attr) = Err e)) ->
     callFails a attr h = true /\
     (callHook a h attr).1 = Some (ErrCallingWebhook (Name h) (Some e)) /\
     rejection a attr h = None) /\
  (forall sch s e,
     exec a attr sch init = Some s -> e ∈ errCh s ++ errs s ->
     isErrCallingWebhook e = false /\
     exists h, h ∈ hs /\ callFails a attr h = false /\
               rejection a attr h = Some e) /\
  (existsb (denies a attr) hs = false ->
     (exists sch, Admit a attr sch = Some None) /\
     (forall sch r, Admit a attr sch = Some r -> r = None)).
Proof.
  intros HL. split_and!.
  - intros h e Happ Hfail. apply roundTrip_Err in Hfail.
    split_and!.
    + unfold callFails. by rewrite Happ, Hfail.
    + rewrite callHook_fst. unfold decision. by rewrite Happ, Hfail.
    + rewrite rejection_eq. by rewrite Happ, Hfail.
  - intros sch s e Hex Hin.
    destruct (reachable_Inv _ _ _ HL Hex) as [->|HI].
    { by apply elem_of_nil in Hin. }
    rewrite (Inv_slots_collected _ _ HI), (inv_ch _ _ _ _ HI) in Hin.
    apply sentOf_elem, rejections_elem in Hin as (h & Hh & Hrej).
    split; [by eapply rejection_not_call_error|].
    exists h. split_and!; try done.
    rewrite rejection_eq in Hrej. unfold callFails.
    destruct (applies attr h); [|done].
    by destruct (roundTrip a attr h).
  - intros Hnone.
    assert (forall sch r, Admit a attr sch = Some r -> r = None) as Hruns.
    { intros sch r. by apply Admit_admits with hs. }
    split; [|done].
    destruct (Admit_total _ HL) as (sch & r & HA).
    exists sch. by rewrite <- (Hruns _ _ HA).
Qed.



(** *** The first error on the channel is the one returned *)

Lemma step_collected_head hs t s s' e l :
  Inv a attr hs s -> collected s = e :: l -> step a attr t s = Some s' ->
  exists l', collected s' = e :: l'.
Proof.
  intros HI Hcol Hstep. unfold collected in *.
  destruct t as [|i]; simpl in Hstep.
  - unfold stepMain in Hstep. destruct (pc s) as [|k| |r] eqn:Hpc.
    + pose proof (inv_pc _ _ _ _ HI) as Hp. by rewrite Hpc in Hp.
    + case_decide; simplify_eq/=; by exists l.
    + case_decide; [|done].
      destruct (aggregate (errCh s)) as [r tr]. simplify_eq/=. by exists l.
    + done.
  - unfold stepGo in Hstep.
    destruct (tasks s !! i) as [[| |e'|]|] eqn:Hl; try done.
    + destruct (hooks s !! i) as [h|]; [|done].
      destruct (callHook a h attr) as [[err|] tr].
      * destruct (isErrCallingWebhook err); simplify_eq/=; by exists l.
      * simplify_eq/=. by exists l.
    + case_decide; simplify_eq/=.
      destruct (pc s) as [|k| |r]; rewrite ?Hcol; simpl; eauto.
Qed.

Lemma exec_collected_head hs sch s s' e l :
  Inv a attr hs s -> collected s = e :: l -> exec a attr sch s = Some s' ->
  exists l', collected s' = e :: l'.
Proof.
  revert s l. induction sch as [|t sch IH]; intros s l HI Hcol Hex;
    simpl in Hex.
  - simplify_eq. by exists l.
  - destruct (step a attr t s) as [s1|] eqn:Hstep; [|done].
    destruct (step_collected_head _ _ _ _ _ _ HI Hcol Hstep) as (l1 & Hcol1).
    eapply IH; [|done..]. by eapply Inv_step.
Qed.

(** The caller starts the goroutines of the first [k] hooks. *)
Lemma spawn_run hs k :
  k <= length hs ->
  exists s, exec a attr (replicate k Main) (listed hs) = Some s /\
            pc s = MSpawn k /\ errCh s = [] /\
            forall j, j < k -> tasks s !! j = Some TCall.
Proof.
  induction k as [|k IH]; intros Hk.
  - exists (listed hs). split_and!; try done. lia.
  - destruct IH as (s & Hex & Hpc & Hch & Hts); [lia|].
    assert (Inv a attr hs s) as HI.
    { eapply Inv_exec; [apply Inv_listed|done]. }
    exists (setPc (MSpawn (S k)) (setTask k TCall s)).
    split_and!; try done.
    + rewrite replicate_S_end, exec_app, Hex. simpl.
      unfold stepMain. rewrite Hpc, (inv_hooks _ _ _ _ HI).
      by rewrite decide_True by lia.
    + intros j Hj. simpl. destruct (decide (j = k)) as [->|Hne].
      * apply list_lookup_insert_eq. rewrite (inv_len _ _ _ _ HI). lia.
      * rewrite list_lookup_insert_ne by done. apply Hts. lia.
Qed.

(** Whichever hook rejects, some schedule makes its error the first on
    the channel, and so the one [Admit] returns. *)
Lemma Admit_any_rejection hs i h e :
  List (hookSource a) = Ok hs -> hs !! i = Some h ->
  rejection a attr h = Some e ->
  exists sch, Admit a attr sch = Some (Some e).
Proof.
  intros HL Hh Hrej.
  assert (i < length hs) as Hi by (by eapply lookup_lt_Some).
  destruct (spawn_run hs (S i)) as (s & Hex & Hpc & Hch & Hts); [lia|].
  assert (Inv a attr hs s) as HI.
  { eapply Inv_exec; [apply Inv_listed|done]. }
  assert (exists tr,
    stepGo a attr i s = Some (setTask i (TSend e) (addLog tr s))) as [tr Hgo1].
  { unfold stepGo. rewrite (Hts i) by lia. rewrite (inv_hooks _ _ _ _ HI), Hh.
    unfold rejection in Hrej. destruct (callHook a h attr) as [[err|] tr];
      simpl in Hrej; [|done].
    destruct (isErrCallingWebhook err); simplify_eq. eauto. }
  set (s1 := setTask i (TSend e) (addLog tr s)) in *.
  assert (Inv a attr hs s1) as HI1.
  { by apply (Inv_step hs (Go i) s). }
  assert (tasks s1 !! i = Some (TSend e)) as Hts1.
  { simpl. apply list_lookup_insert_eq. rewrite (inv_len _ _ _ _ HI). lia. }
  assert (stepGo a attr i s1 = Some (exitTask i (send e s1))) as Hgo2.
  { unfold stepGo. rewrite Hts1.
    rewrite decide_True; [done|]. by eapply Inv_room. }
  set (s2 := exitTask i (send e s1)) in *.
  assert (Inv a attr hs s2) as HI2.
  { by apply (Inv_step hs (Go i) s1). }
  destruct (terminates hs s2 HI2) as (sch & s' & r & Hex' & Hret).
  assert (collected s2 = [e]) as Hcol.
  { unfold collected. simpl. by rewrite Hpc, Hch. }
  destruct (exec_collected_head _ _ _ _ _ _ HI2 Hcol Hex') as (l' & Hcol').
  pose proof (Inv_exec _ _ _ _ HI2 Hex') as HI'.
  pose proof (inv_pc _ _ _ _ HI') as Hp. rewrite Hret in Hp.
  destruct Hp as [_ ->].
  unfold collected in Hcol'. rewrite Hret in Hcol'.
  exists (Main :: replicate (S i) Main ++ [Go i; Go i] ++ sch).
  apply Admit_Some. exists s'. split; [|by rewrite Hret, Hcol'].
  cbn [exec step]. unfold stepMain at 1. simpl pc. cbv iota. rewrite HL.
  change (exec a attr (replicate (S i) Main ++ [Go i; Go i] ++ sch)
            (listed hs) = Some s').
  rewrite exec_app, Hex, exec_app. simpl. fold s1. rewrite Hgo1.
  by rewrite Hgo2.
Qed.



(** C10: the error channel has the capacity of the number of listed hooks;
    at every point of every run the errors in the channel and the
    goroutines that have not returned together do not exceed that capacity
    (a goroutine sends at most once), so a goroutine about to send finds
    room and is not blocked; a run that has not returned always has a
    thread that can move and can be run to the return of [Admit]; and
    [Admit] aggregates at most as many errors as there are hooks. *)
Theorem errCh_send_never_blocks hs :
  List (hookSource a) = Ok hs ->
  step a attr Main init = Some (listed hs) /\
  capCh (listed hs) = length hs /\
  (forall sch s, exec a attr sch init = Some s ->
     (s = init \/ capCh s = length hs) /\
     length (errCh s) + live (tasks s) <= capCh s /\
     (forall i e, tasks s !! i = Some (TSend e) ->
        length (errCh s) < capCh s /\
        step a attr (Go i) s = Some (exitTask i (send e s))) /\
     ((forall r, pc s <> MRet r) -> exists t, is_Some (step a attr t s)) /\
     (exists sch' s' r, exec a attr sch' s = Some s' /\ pc s' = MRet r) /\
     length (errs s) <= length hs).
Proof.
  intros HL.
  assert (step a attr Main init = Some (listed hs)) as Hfirst.
  { simpl. unfold stepMain. simpl. by rewrite HL. }
  split_and!; try done.
  intros sch s Hex.
  destruct (reachable_Inv _ _ _ HL Hex) as [->|HI].
  { split_and!; simpl; try done.
    - by left.
    - intros _. exists Main. by rewrite Hfirst.
    - destruct (terminates hs _ (Inv_listed hs)) as (sch' & s' & r & Hex' & Hr).
      exists (Main :: sch'), s', r. split; [|done].
      cbn [exec]. by rewrite Hfirst.
    - lia. }
  pose proof (sentOf_length hs (tasks s)) as Hlen.
  pose proof (inv_ch _ _ _ _ HI) as Hch.
  pose proof (Inv_slots_collected _ _ HI) as Hsl.
  assert (length (errCh s) + length (errs s)
          = length (sentOf a attr hs (tasks s))) as Hsum.
  { by rewrite <- Hch, <- Hsl, length_app. }
  rewrite (inv_len _ _ _ _ HI) in Hlen.
  split_and!.
  - right. apply (inv_cap _ _ _ _ HI).
  - rewrite (inv_cap _ _ _ _ HI). lia.
  - intros i e Hl.
    assert (length (errCh s) < capCh s) as Hroom by (by eapply Inv_room).
    split; [done|]. simpl. unfold stepGo. by rewrite Hl, decide_True.
  - by apply progress with hs.
  - by apply terminates with hs.
  - lia.
Qed.

(** When [Admit] has returned, every goroutine has: the join. *)
Lemma Admit_waits_for_all hs sch s r :
  List (hookSource a) = Ok hs -> exec a attr sch init = Some s ->
  pc s = MRet r ->
  length (tasks s) = length hs /\
  forall i t, tasks s !! i = Some t -> t = TExit.
Proof.
  intros HL Hex Hpc.
  destruct (reachable_Inv _ _ _ HL Hex) as [->|HI]; [done|].
  split; [apply (inv_len _ _ _ _ HI)|].
  pose proof (inv_pc _ _ _ _ HI) as Hp. rewrite Hpc in Hp.
  destruct Hp as [H0 _]. intros i t. by apply live_zero_lookup.
Qed.

End Proofs.

(** ** The statements on the concrete cluster *)



Lemma Admit_fail_open_witness :
  List (hookSource (Demo.plugin
          (Ok [Demo.hDown; Demo.hOk; Demo.hLost; Demo.hBadTLS; Demo.hQuotaNodes])))
  = Ok [Demo.hDown; Demo.hOk; Demo.hLost; Demo.hBadTLS; Demo.hQuotaNodes] /\
  existsb (denies (W:=Demo.world)
             (Demo.plugin
                (Ok [Demo.hDown; Demo.hOk; Demo.hLost; Demo.hBadTLS;
                     Demo.hQuotaNodes])) Demo.createPod)
    [Demo.hDown; Demo.hOk; Demo.hLost; Demo.hBadTLS; Demo.hQuotaNodes] = false /\
  forall sch r,
    Admit (W:=Demo.world)
      (Demo.plugin
         (Ok [Demo.hDown; Demo.hOk; Demo.hLost; Demo.hBadTLS; Demo.hQuotaNodes]))
      Demo.createPod sch = Some r ->
    r = None.
Proof.
  split; [reflexivity|]. split; [reflexivity|].
  destruct (Admit_fail_open (W:=Demo.world)
              (Demo.plugin
                 (Ok [Demo.hDown; Demo.hOk; Demo.hLost; Demo.hBadTLS;
                      Demo.hQuotaNodes])) Demo.createPod
              [Demo.hDown; Demo.hOk; Demo.hLost; Demo.hBadTLS; Demo.hQuotaNodes]
              eq_refl) as (_ & _ & Hnil).
  apply Hnil. reflexivity.
Defined.



Lemma callHook_denied_without_explanation_witness :
  roundTrip (W:=Demo.world) (Demo.plugin (Ok [Demo.hOk; Demo.hMute]))
    Demo.createPod Demo.hMute
  = Ok {| ReviewSpec := ReviewSpec (NewAdmissionReview Demo.createPod);
          ReviewStatus := {| Allowed := false; Result := None |} |} /\
  (callHook (W:=Demo.world) (Demo.plugin (Ok [Demo.hOk; Demo.hMute]))
     Demo.hMute Demo.createPod).1
  = Some (ErrorString ("admission webhook " +:+ Demo.demoQuote "mute" +:+
                       " denied the request without explanation")) /\
  forall sch r,
    Admit (W:=Demo.world) (Demo.plugin (Ok [Demo.hOk; Demo.hMute]))
      Demo.createPod sch = Some r ->
    exists e, r = Some e.
Proof.
  split; [reflexivity|].
  destruct (callHook_denied_without_explanation (W:=Demo.world)
              (Demo.plugin (Ok [Demo.hOk; Demo.hMute])) Demo.createPod
              [Demo.hOk; Demo.hMute] 1 Demo.hMute
              {| ReviewSpec := ReviewSpec (NewAdmissionReview Demo.createPod);
                 ReviewStatus := {| Allowed := false; Result := None |} |}
              eq_refl eq_refl eq_refl eq_refl eq_refl eq_refl)
    as (Hcall & _ & _ & _ & Hruns).
  split; [exact Hcall|exact Hruns].
Defined.

Lemma Admit_list_error_witness :
  List (hookSource (Demo.plugin (Err (ErrorString "etcd unavailable"))))
  = Err (ErrorString "etcd unavailable") /\
  Admit (W:=Demo.world) (Demo.plugin (Err (ErrorString "etcd unavailable")))
    Demo.createPod [Main]
  = Some (Some (ErrorString "failed listing hooks: etcd unavailable")).
Proof.
  split; [reflexivity|].
  exact (proj1 (Admit_list_error (W:=Demo.world)
                  (Demo.plugin (Err (ErrorString "etcd unavailable")))
                  Demo.createPod (ErrorString "etcd unavailable") eq_refl)).
Defined.

Lemma hookClient_config_witness :
  ResolveEndpoint (serviceResolver (Demo.plugin (Ok [Demo.hQuota])))
    "default" "quota"
  = Ok {| Host := "quota.default.svc"; Path := "/admit" |} /\
  hookConfig (Demo.plugin (Ok [Demo.hQuota])) Demo.hQuota
    {| Host := "quota.default.svc"; Path := "/admit" |}
  = {| CfgHost := "quota.default.svc";
       CfgAPIPath := "/admit";
       CfgTLSClientConfig :=
         {| CAData := [48%Z; 130%Z];
            CertData := [1%Z; 2%Z];
            KeyData := [3%Z; 4%Z] |};
       CfgUserAgent := "kube-apiserver-admission";
       CfgTimeout := 30000000000;
       CfgContentConfig :=
         {| NegotiatedSerializer := "admission.k8s.io/v1alpha1" |} |}.
Proof.
  split; [reflexivity|].
  exact (proj1 (hookClient_config (W:=Demo.world)
                  (Demo.plugin (Ok [Demo.hQuota])) Demo.createPod Demo.hQuota
                  {| Host := "quota.default.svc"; Path := "/admit" |}
                  eq_refl)).
Defined.

Lemma errCh_send_never_blocks_witness :
  List (hookSource (Demo.plugin (Ok [Demo.hQuota; Demo.hPolicy; Demo.hMute])))
  = Ok [Demo.hQuota; Demo.hPolicy; Demo.hMute] /\
  forall sch s,
    exec (W:=Demo.world) (Demo.plugin (Ok [Demo.hQuota; Demo.hPolicy; Demo.hMute]))
      Demo.createPod sch init = Some s ->
    length (errCh s) + live (tasks s) <= capCh s /\ length (errs s) <= 3.
Proof.
  split; [reflexivity|].
  intros sch s Hex.
  destruct (errCh_send_never_blocks (W:=Demo.world)
              (Demo.plugin (Ok [Demo.hQuota; Demo.hPolicy; Demo.hMute]))
              Demo.createPod [Demo.hQuota; Demo.hPolicy; Demo.hMute] eq_refl)
    as (_ & _ & Hall).
  destruct (Hall sch s Hex) as (_ & Hroom & _ & _ & _ & Hcount).
  split; [exact Hroom|exact Hcount].
Defined.

(** ** Further properties of the dispatch *)

Section Dispatch.

Context {W : Externals} (a : GenericAdmissionWebhook) (attr : Attributes).

Implicit Types (hs : list ExternalAdmissionHook) (ts : list TaskPC).
Implicit Types (h : ExternalAdmissionHook) (s : State) (sch : list Tid).

Lemma rejections_nil_iff hs :
  rejections a attr hs = [] <-> existsb (denies a attr) hs = false.
Proof.
  split; [|apply rejections_nil].
  induction hs as [|h hs IH]; simpl; [done|].
  unfold rejections. simpl. fold (rejections a attr hs).
  destruct (rejection a attr h) as [e|] eqn:Hrej; [done|].
  intros Hnil. rewrite (IH Hnil), orb_false_r.
  destruct (denies a attr h) eqn:Hd; [|done].
  apply rejection_denies in Hd as [e He]. congruence.
Qed.

Lemma Admit_result_possible hs sch r :
  List (hookSource a) = Ok hs -> Admit a attr sch = Some r ->
  possible (rejections a attr hs) r.
Proof.
  intros HL HA.
  destruct (Admit_result _ _ _ _ _ HL HA) as (es & Hperm & ->).
  destruct es as [|e es]; simpl.
  - symmetry in Hperm. by apply Permutation_nil_r in Hperm.
  - rewrite <- Hperm. by left.
Qed.

Lemma Admit_possible_reached hs r :
  List (hookSource a) = Ok hs -> possible (rejections a attr hs) r ->
  exists sch, Admit a attr sch = Some r.
Proof.
  intros HL. destruct r as [e|]; simpl.
  - intros (h & Hin & Hrej)%rejections_elem.
    apply list_elem_of_lookup in Hin as (i & Hi).
    by eapply Admit_any_rejection.
  - intros Hnil. destruct (Admit_total _ attr _ HL) as (sch & r & HA).
    exists sch. destruct (Admit_result _ _ _ _ _ HL HA) as (es & Hperm & ->).
    rewrite Hnil in Hperm. by apply Permutation_nil_r in Hperm as ->.
Qed.

(** X1: the results [Admit] can return, over all schedules, are exactly:
    nil when no listed hook rejects, and otherwise the rejection of any one
    of the rejecting hooks. *)
Theorem Admit_possible_results hs r :
  List (hookSource a) = Ok hs ->
  (exists sch, Admit a attr sch = Some r) <->
  possible (rejections a attr hs) r.
Proof.
  intros HL. split.
  - intros (sch & HA). exact (Admit_result_possible hs sch r HL HA).
  - intros Hposs. exact (Admit_possible_reached hs r HL Hposs).
Qed.

(** X2: under every schedule, [Admit] returns nil exactly when no listed
    hook denies the request. *)
Theorem Admit_nil_iff_no_denial hs sch r :
  List (hookSource a) = Ok hs -> Admit a attr sch = Some r ->
  (r = None <-> existsb (denies a attr) hs = false).
Proof.
  intros HL HA. rewrite <- rejections_nil_iff.
  destruct (Admit_result _ _ _ _ _ HL HA) as (es & Hperm & ->).
  split.
  - destruct es as [|e es]; [|done]. intros _.
    symmetry in Hperm. by apply Permutation_nil_r in Hperm.
  - intros Hnil. rewrite Hnil in Hperm.
    by apply Permutation_nil_r in Hperm as ->.
Qed.

(** X3: an error that [Admit] returns after a successful listing comes from
    a listed hook of which a rule matches and whose call succeeded with
    [Allowed = false]; it is the status error of the review's [Result], or
    the generic error when there is none, and never an
    [ErrCallingWebhook]. *)
Theorem Admit_error_origin hs sch e :
  List (hookSource a) = Ok hs -> Admit a attr sch = Some (Some e) ->
  isErrCallingWebhook e = false /\
  exists h rv,
    h ∈ hs /\ applies attr h = true /\ roundTrip a attr h = Ok rv /\
    Allowed (ReviewStatus rv) = false /\
    e = match Result (ReviewStatus rv) with
        | Some st => StatusError st
        | None => ErrorString
            ("admission webhook " +:+ quote (Name h) +:+
             " denied the request without explanation")
        end.
Proof.
  intros HL HA.
  destruct (Admit_result _ _ _ _ _ HL HA) as (es & Hperm & Hhead).
  destruct es as [|e' es]; [done|]. simpl in Hhead. injection Hhead as <-.
  assert (e ∈ rejections a attr hs) as Hin by (rewrite <- Hperm; by left).
  apply rejections_elem in Hin as (h & Hin & Hrej).
  split; [by eapply rejection_not_call_error|].
  rewrite rejection_eq in Hrej.
  destruct (applies attr h) eqn:Happ; [|done].
  destruct (roundTrip a attr h) as [rv|] eqn:Hrt; [|done].
  destruct (Allowed (ReviewStatus rv)) eqn:Hall; [done|].
  exists h, rv. split_and!; try done.
  destruct (Result (ReviewStatus rv)); by simplify_eq.
Qed.

(** X4: when the rejections of the listed hooks are all the same error (in
    particular when at most one hook rejects), the result of [Admit] does
    not depend on the schedule: it is the first rejection in listing
    order. *)
Theorem Admit_schedule_independent hs sch r :
  List (hookSource a) = Ok hs ->
  (forall e1 e2, e1 ∈ rejections a attr hs -> e2 ∈ rejections a attr hs ->
                 e1 = e2) ->
  Admit a attr sch = Some r -> r = head (rejections a attr hs).
Proof.
  intros HL Hsame HA.
  destruct (Admit_result _ _ _ _ _ HL HA) as (es & Hperm & ->).
  destruct es as [|e es].
  - symmetry in Hperm. by apply Permutation_nil_r in Hperm as ->.
  - destruct (rejections a attr hs) as [|e' es'] eqn:Hrej.
    + by apply Permutation_nil_r in Hperm.
    + simpl. f_equal. apply Hsame.
      * rewrite <- Hperm. by left.
      * by left.
Qed.

Lemma measure_listed hs : measure (listed hs) = 2 + 3 * length hs.
Proof.
  unfold measure. simpl. rewrite fmap_replicate, sum_list_replicate. simpl. lia.
Qed.

(** X5: under no schedule does a run of [Admit] take more than
    [3 + 3 * len(hooks)] moves, and a run in which no thread can move any
    more has returned: [Admit] returns whatever the scheduler does. *)
Theorem Admit_run_bounded hs sch s :
  List (hookSource a) = Ok hs -> exec a attr sch init = Some s ->
  length sch <= 3 + 3 * length hs /\
  ((forall t, step a attr t s = None) -> exists r, pc s = MRet r).
Proof.
  intros HL Hex.
  destruct (exec_init _ _ _ _ _ HL Hex) as [[-> ->]|(sch' & -> & Hex')].
  - split; [simpl; lia|]. intros Hstuck. specialize (Hstuck Main).
    simpl in Hstuck. unfold stepMain in Hstuck. simpl in Hstuck.
    by rewrite HL in Hstuck.
  - pose proof (exec_length _ _ _ _ _ _ (Inv_listed a attr hs) Hex') as Hlen.
    rewrite measure_listed in Hlen. split; [simpl; lia|].
    intros Hstuck.
    assert (Inv a attr hs s) as HI.
    { eapply Inv_exec; [apply Inv_listed|done]. }
    destruct (pc s) as [|k| |r] eqn:Hpc; [| | |by exists r].
    all: destruct (progress _ _ _ _ HI) as (t & s1 & Hstep);
      [intros r; congruence|]; by rewrite Hstuck in Hstep.
Qed.

(** X6: in every state of a run the wait-group counter is the number of
    goroutines that have not returned; a goroutine that returns finds it
    positive and takes one off (it never goes below zero); and once the
    caller is past [wg.Wait()] (the channel is closed) no goroutine can
    move, so nothing is sent on the closed channel. *)
Theorem wait_group_counts_goroutines hs sch s :
  List (hookSource a) = Ok hs -> exec a attr sch init = Some s ->
  wg s = live (tasks s) /\
  (forall i s', step a attr (Go i) s = Some s' ->
     tasks s' !! i = Some TExit -> wg s = S (wg s')) /\
  (forall r, pc s = MRet r -> forall i, step a attr (Go i) s = None).
Proof.
  intros HL Hex.
  destruct (reachable_Inv _ _ _ _ _ HL Hex) as [->|HI].
  { split_and!; try done. }
  pose proof (inv_wg _ _ _ _ HI) as Hwg.
  split_and!; [done| |].
  - intros i s' Hstep Hexit. simpl in Hstep. unfold stepGo in Hstep.
    destruct (tasks s !! i) as [[| |e|]|] eqn:Hl; try done.
    + pose proof (live_lookup_pos _ _ _ Hl eq_refl) as Hpos.
      destruct (hooks s !! i) as [h|]; [|done].
      destruct (callHook a h attr) as [[err|] tr].
      * destruct (isErrCallingWebhook err); simplify_eq/=; [lia|].
        rewrite list_lookup_insert_eq in Hexit; [done|].
        by eapply lookup_lt_Some.
      * simplify_eq/=. lia.
    + pose proof (live_lookup_pos _ _ _ Hl eq_refl) as Hpos.
      case_decide; simplify_eq/=. lia.
  - intros r Hpc i. simpl. unfold stepGo.
    pose proof (inv_pc _ _ _ _ HI) as Hp. rewrite Hpc in Hp.
    destruct Hp as [H0 _].
    destruct (tasks s !! i) as [t|] eqn:Hl; [|done].
    by rewrite (live_zero_lookup _ _ _ H0 Hl).
Qed.

(** X7: with an empty snapshot [Admit] starts no goroutine, does not block
    on [wg.Wait()] and returns nil: its only run to the return is three
    moves of the caller. *)
Theorem Admit_empty_snapshot :
  List (hookSource a) = Ok [] ->
  Admit a attr [Main; Main; Main] = Some None /\
  (forall sch r, Admit a attr sch = Some r ->
     sch = [Main; Main; Main] /\ r = None) /\
  (forall sch s, exec a attr sch init = Some s ->
     tasks s = [] /\ errCh s = [] /\ (log s = [] \/ log s = [EvList])).
Proof.
  intros HL.
  assert (forall sch s, exec a attr sch init = Some s ->
            (sch = [] /\ s = init) \/
            (sch = [Main] /\ s = listed []) \/
            (sch = [Main; Main] /\ s = setPc MWait (listed [])) \/
            (sch = [Main; Main; Main] /\ pc s = MRet None /\
             tasks s = [] /\ errCh s = [] /\ log s = [EvList])) as Hruns.
  { intros sch s Hex.
    destruct (exec_init _ _ _ _ _ HL Hex) as [?|(sch1 & -> & Hex1)]; [by left|].
    right. destruct sch1 as [|[|i] sch2]; simpl in Hex1; [left; by simplify_eq| |done].
    right. destruct sch2 as [|[|i] sch3]; simpl in Hex1; [left; by simplify_eq| |done].
    right. destruct sch3 as [|[|i] sch4]; simpl in Hex1; [by simplify_eq|done|done]. }
  split_and!.
  - unfold Admit. simpl. unfold stepMain at 1. simpl. by rewrite HL.
  - intros sch r (s & Hex & Hpc)%Admit_Some.
    destruct (Hruns _ _ Hex) as [[-> ->]|[[-> ->]|[[-> ->]|(-> & Hr & _)]]];
      simpl in Hpc; try done.
    split; [done|]. congruence.
  - intros sch s Hex.
    destruct (Hruns _ _ Hex)
      as [[-> ->]|[[-> ->]|[[-> ->]|(-> & _ & Ht & Hc & Hl)]]]; simpl; auto.
Qed.

(** *** The calls of one hook *)

Lemma countPosts_app (tr1 tr2 : list Event) :
  countPosts (tr1 ++ tr2) = countPosts tr1 + countPosts tr2.
Proof. induction tr1 as [|ev tr1 IH]; simpl; [done|]. rewrite IH. lia. Qed.

Lemma countPosts_Permutation (tr1 tr2 : list Event) :
  tr1 ≡ₚ tr2 -> countPosts tr1 = countPosts tr2.
Proof. induction 1; simpl; lia. Qed.

Lemma countPosts_matches (rs : list Rule) : countPosts (EvMatches <$> rs) = 0.
Proof. induction rs as [|r rs IH]; simpl; done. Qed.

Lemma countPosts_handled (es : list error) :
  countPosts (map EvHandleError es) = 0.
Proof. induction es as [|e es IH]; simpl; done. Qed.

(** X8: [callHook] evaluates the rules up to the first match and then, if
    one matched, resolves the endpoint, builds one client and posts the
    review once, in this order; it builds no client when the resolution
    fails and posts nothing when the resolution or the client construction
    fails. It never calls twice. *)
Theorem callHook_call_sequence h :
  (callHook a h attr).2
  = (EvMatches <$> examined attr (Rules h)) ++
    (if applies attr h then
       EvResolveEndpoint (ServiceNamespace (Service (ClientConfig h)))
                         (ServiceName (Service (ClientConfig h))) ::
       match ResolveEndpoint (serviceResolver a)
               (ServiceNamespace (Service (ClientConfig h)))
               (ServiceName (Service (ClientConfig h))) with
       | Err _ => []
       | Ok u =>
           EvRESTClientFor (hookConfig a h u) ::
           match UnversionedRESTClientFor (hookConfig a h u) with
           | Err _ => []
           | Ok c => [EvPost c (NewAdmissionReview attr)]
           end
       end
     else []) /\
  countPosts (callHook a h attr).2 = (if posts a attr h then 1 else 0).
Proof.
  assert (callTrace a attr h
          = if applies attr h then
              EvResolveEndpoint (ServiceNamespace (Service (ClientConfig h)))
                                (ServiceName (Service (ClientConfig h))) ::
              match ResolveEndpoint (serviceResolver a)
                      (ServiceNamespace (Service (ClientConfig h)))
                      (ServiceName (Service (ClientConfig h))) with
              | Err _ => []
              | Ok u =>
                  EvRESTClientFor (hookConfig a h u) ::
                  match UnversionedRESTClientFor (hookConfig a h u) with
                  | Err _ => []
                  | Ok c => [EvPost c (NewAdmissionReview attr)]
                  end
              end
            else []) as Htrace.
  { unfold callTrace, hookClient. destruct (applies attr h); [|done].
    destruct (ResolveEndpoint _ _ _) as [u|e]; simpl; [|done].
    by destruct (UnversionedRESTClientFor (hookConfig a h u)). }
  split.
  - by rewrite callHook_snd, Htrace.
  - rewrite callHook_snd, countPosts_app, countPosts_matches, Htrace.
    unfold posts, hookClient. destruct (applies attr h); [|done].
    destruct (ResolveEndpoint _ _ _) as [u|e]; simpl; [|done].
    by destruct (UnversionedRESTClientFor (hookConfig a h u)).
Qed.

(** X9: an [ErrCallingWebhook] that [callHook] returns names the hook it
    was called for and always carries the underlying error of the failed
    resolution, client construction or transport, so that its message is
    the name and that error's message, never the form without details. *)
Theorem callHook_call_error_attribution h n r :
  (callHook a h attr).1 = Some (ErrCallingWebhook n r) ->
  n = Name h /\ applies attr h = true /\
  exists e, r = Some e /\ roundTrip a attr h = Err e /\
    Error (ErrCallingWebhook n r)
    = "failed calling admission webhook " +:+ quote (Name h) +:+ ": " +:+
      Error e.
Proof.
  rewrite callHook_fst. unfold decision.
  destruct (applies attr h); [|done].
  destruct (roundTrip a attr h) as [rv|e].
  - destruct (Allowed (ReviewStatus rv)); [done|].
    by destruct (Result (ReviewStatus rv)).
  - intros [= <- <-]. split_and!; try done. by exists e.
Qed.

Lemma applies_same_rules h h' :
  Rules h ⊆ Rules h' -> Rules h' ⊆ Rules h -> applies attr h = applies attr h'.
Proof.
  intros H1 H2.
  destruct (applies attr h) eqn:Ha; destruct (applies attr h') eqn:Ha';
    try done.
  - apply applies_true in Ha as (r & Hin & Hm).
    assert (applies attr h' = true) as Hc.
    { apply applies_true. exists r. split; [by apply H1|done]. }
    congruence.
  - apply applies_true in Ha' as (r & Hin & Hm).
    assert (applies attr h = true) as Hc.
    { apply applies_true. exists r. split; [by apply H2|done]. }
    congruence.
Qed.

(** X10: what [callHook] returns does not depend on the order of the
    hook's rules nor on a rule being listed twice: two hooks with the same
    name, the same client configuration and the same set of rules get the
    same result. *)
Theorem callHook_rule_order_irrelevant h h' :
  Name h = Name h' -> ClientConfig h = ClientConfig h' ->
  Rules h ⊆ Rules h' -> Rules h' ⊆ Rules h ->
  (callHook a h attr).1 = (callHook a h' attr).1.
Proof.
  intros Hname Hcfg H1 H2. rewrite !callHook_fst. unfold decision.
  rewrite (applies_same_rules _ _ H1 H2).
  assert (roundTrip a attr h = roundTrip a attr h') as ->.
  { unfold roundTrip, hookClient, hookConfig. by rewrite Hcfg. }
  by rewrite Hname.
Qed.

(** *** The log of a run *)

Lemma calledLog_insert_same hs ts i t t' :
  ts !! i = Some t -> hasCalled t = hasCalled t' ->
  calledLog a attr hs (<[i:=t']> ts) = calledLog a attr hs ts.
Proof.
  revert ts i. induction hs as [|h0 hs IH]; intros [|t0 ts] [|i] Hl Hc;
    simplify_eq/=; try done.
  - by rewrite Hc.
  - by rewrite (IH ts i).
Qed.

Lemma calledLog_insert_called hs ts i h t' :
  hs !! i = Some h -> ts !! i = Some TCall -> hasCalled t' = true ->
  calledLog a attr hs (<[i:=t']> ts)
  ≡ₚ calledLog a attr hs ts ++ taskLog a attr h.
Proof.
  revert ts i. induction hs as [|h0 hs IH]; intros [|t0 ts] [|i] Hh Hl Hc;
    simplify_eq/=.
  - rewrite Hc. apply Permutation_app_comm.
  - rewrite (IH ts i) by done. by rewrite (assoc app).
Qed.

Lemma calledLog_replicate hs n : calledLog a attr hs (replicate n TIdle) = [].
Proof.
  revert n. induction hs as [|h0 hs IH]; intros [|n]; simpl; try done.
Qed.

Lemma calledLog_all_exit hs ts :
  length ts = length hs -> live ts = 0 ->
  calledLog a attr hs ts = flat_map (taskLog a attr) hs.
Proof.
  revert ts. induction hs as [|h0 hs IH]; intros [|t0 ts] Hlen H0;
    simplify_eq/=; [done|].
  destruct t0; simpl in H0; try lia. simpl. by rewrite (IH ts).
Qed.

Lemma LogInv_listed hs : LogInv a attr hs (listed hs).
Proof.
  unfold LogInv, aggregateLog. simpl. by rewrite calledLog_replicate.
Qed.

Lemma LogInv_step hs t s s' :
  Inv a attr hs s -> LogInv a attr hs s -> step a attr t s = Some s' ->
  LogInv a attr hs s'.
Proof.
  unfold LogInv, aggregateLog. intros HI HL Hstep.
  destruct t as [|i]; simpl in Hstep.
  - unfold stepMain in Hstep.
    pose proof (inv_pc _ _ _ _ HI) as Hp.
    destruct (pc s) as [|k| |r] eqn:Hpc; [done| | |done].
    + rewrite (inv_hooks _ _ _ _ HI) in Hstep.
      destruct Hp as [Hidle _]. case_decide; simplify_eq/=; [|done].
      by rewrite (calledLog_insert_same _ _ _ TIdle) by (by apply Hidle || done).
    + case_decide; [|done].
      destruct (aggregate (errCh s)) as [r tr] eqn:Hagg. simplify_eq/=.
      rewrite HL, app_nil_r. unfold aggregate in Hagg.
      destruct (errCh s); by simplify_eq/=.
  - unfold stepGo in Hstep.
    destruct (tasks s !! i) as [[| |e|]|] eqn:Hl; try done.
    + rewrite (inv_hooks _ _ _ _ HI) in Hstep.
      destruct (hs !! i) as [h|] eqn:Hh; [|done].
      assert (forall r, pc s <> MRet r) as Hrun by (by eapply Inv_running).
      assert (forall t', hasCalled t' = true ->
                log s ++ taskLog a attr h
                ≡ₚ EvList :: calledLog a attr hs (<[i:=t']> (tasks s)) ++ [])
        as Hnew.
      { intros t' Hc. rewrite (calledLog_insert_called _ _ _ _ _ Hh Hl Hc).
        rewrite HL. destruct (pc s) as [|k| |r]; try by rewrite !app_nil_r.
        by destruct (Hrun r). }
      unfold taskLog in Hnew.
      destruct (callHook a h attr) as [[err|] tr].
      * destruct (isErrCallingWebhook err); simplify_eq/=.
        -- destruct (pc s) as [|k| |r]; try by apply Hnew.
           by destruct (Hrun r).
        -- destruct (pc s) as [|k| |r]; try by apply Hnew.
           by destruct (Hrun r).
      * simplify_eq/=. destruct (pc s) as [|k| |r]; try by apply Hnew.
        by destruct (Hrun r).
    + case_decide; simplify_eq/=.
      by rewrite (calledLog_insert_same _ _ _ (TSend e)).
Qed.

Lemma LogInv_exec hs sch s s' :
  Inv a attr hs s -> LogInv a attr hs s -> exec a attr sch s = Some s' ->
  LogInv a attr hs s'.
Proof.
  revert s. induction sch as [|t sch IH]; intros s HI HL Hex; simpl in Hex.
  - by simplify_eq.
  - destruct (step a attr t s) as [s1|] eqn:Hstep; [|done].
    eapply IH; [| |done]; [by eapply Inv_step|by eapply LogInv_step].
Qed.

Lemma countPosts_taskLog h :
  countPosts (taskLog a attr h) = if posts a attr h then 1 else 0.
Proof.
  pose proof (callHook_snd a attr h) as Hsnd. unfold taskLog.
  assert (countPosts (callHook a h attr).2 = if posts a attr h then 1 else 0)
    as Hcount.
  { rewrite Hsnd, countPosts_app, countPosts_matches.
    unfold callTrace, posts. destruct (applies attr h); [|done]. simpl.
    rewrite countPosts_app.
    assert (countPosts (hookClient a h).2 = 0) as ->.
    { unfold hookClient. by destruct (ResolveEndpoint _ _ _). }
    by destruct (hookClient a h).1. }
  destruct (callHook a h attr) as [[err|] tr]; simpl in *; [|done].
  destruct (isErrCallingWebhook err); rewrite countPosts_app; simpl; lia.
Qed.

Lemma countPosts_flat_map hs :
  countPosts (flat_map (taskLog a attr) hs)
  = length (filter (fun h => posts a attr h = true) hs).
Proof.
  induction hs as [|h hs IH]; simpl; [done|].
  rewrite countPosts_app, countPosts_taskLog, IH, filter_cons.
  destruct (posts a attr h); by case_decide.
Qed.

Lemma Admit_log_when_returned hs sch s r :
  List (hookSource a) = Ok hs -> exec a attr sch init = Some s ->
  pc s = MRet r ->
  log s ≡ₚ EvList :: flat_map (taskLog a attr) hs ++
           map EvHandleError (tail (errs s)) /\
  Inv a attr hs s.
Proof.
  intros HL Hex Hpc.
  destruct (exec_init _ _ _ _ _ HL Hex) as [[-> ->]|(sch' & -> & Hex')];
    [done|].
  pose proof (Inv_exec _ _ _ _ _ _ (Inv_listed a attr hs) Hex') as HI.
  pose proof (LogInv_exec _ _ _ _ (Inv_listed a attr hs) (LogInv_listed hs) Hex')
    as Hlog.
  unfold LogInv, aggregateLog in Hlog. rewrite Hpc in Hlog.
  pose proof (inv_pc _ _ _ _ HI) as Hp. rewrite Hpc in Hp.
  destruct Hp as [H0 _].
  by rewrite (calledLog_all_exit _ _ (inv_len _ _ _ _ HI) H0) in Hlog.
Qed.

(** X11: every listed hook is evaluated exactly once, whatever the others
    answer: when [Admit] returns, its log is the listing, what the
    goroutine of each hook writes (the events of its one [callHook] and its
    warning) in some order of the hooks, and the rejections handed to
    [HandleError]; so exactly one request went to each hook that a rule
    matches and whose client could be built. *)
Theorem Admit_evaluates_every_hook_once hs sch s r :
  List (hookSource a) = Ok hs -> exec a attr sch init = Some s ->
  pc s = MRet r ->
  log s ≡ₚ EvList :: flat_map (taskLog a attr) hs ++
           map EvHandleError (tail (errs s)) /\
  countPosts (log s) = length (filter (fun h => posts a attr h = true) hs).
Proof.
  intros HL Hex Hpc.
  destruct (Admit_log_when_returned hs sch s r HL Hex Hpc)
    as (Hlog & _).
  split; [done|].
  rewrite (countPosts_Permutation _ _ Hlog). simpl.
  by rewrite countPosts_app, countPosts_handled, countPosts_flat_map, Nat.add_0_r.
Qed.

Lemma taskLog_in_log hs s r h ev :
  log s ≡ₚ EvList :: flat_map (taskLog a attr) hs ++
           map EvHandleError (tail (errs s)) ->
  pc s = MRet r -> h ∈ hs -> ev ∈ taskLog a attr h -> ev ∈ log s.
Proof.
  intros Hlog _ Hin Hev. rewrite Hlog. right. apply elem_of_app. left.
  apply list_elem_of_In, in_flat_map. exists h.
  split; by apply list_elem_of_In.
Qed.

(** X12: nothing is dropped silently. When [Admit] returns, every failed
    call has been logged and handed to [HandleError], every rejection has
    been logged, and every rejection is either the returned error or has
    been handed to [HandleError]. *)
Theorem Admit_reports_every_outcome hs sch s r :
  List (hookSource a) = Ok hs -> exec a attr sch init = Some s ->
  pc s = MRet r ->
  (forall h, h ∈ hs -> callFails a attr h = true ->
     exists e, (callHook a h attr).1 = Some e /\
               EvWarnFailedCalling (Name h) e ∈ log s /\
               EvHandleError e ∈ log s) /\
  (forall h e, h ∈ hs -> rejection a attr h = Some e ->
     EvWarnRejected (Name h) e ∈ log s /\
     (r = Some e \/ EvHandleError e ∈ log s)).
Proof.
  intros HL Hex Hpc.
  destruct (Admit_log_when_returned hs sch s r HL Hex Hpc)
    as (Hlog & HI).
  split.
  - intros h Hin Hfail. unfold callFails in Hfail.
    apply andb_true_iff in Hfail as [Happ Hrt].
    destruct (roundTrip a attr h) as [rv|e] eqn:Hround; [done|].
    exists (ErrCallingWebhook (Name h) (Some e)).
    assert ((callHook a h attr).1 = Some (ErrCallingWebhook (Name h) (Some e)))
      as Hcall.
    { rewrite callHook_fst. unfold decision. by rewrite Happ, Hround. }
    split; [done|].
    assert (forall ev,
      ev ∈ [EvWarnFailedCalling (Name h) (ErrCallingWebhook (Name h) (Some e));
            EvHandleError (ErrCallingWebhook (Name h) (Some e))] ->
      ev ∈ taskLog a attr h) as Hevs.
    { intros ev Hev. unfold taskLog.
      destruct (callHook a h attr) as [err tr]. simpl in Hcall. subst err.
      simpl. apply elem_of_app. by right. }
    split; eapply taskLog_in_log; try done; apply Hevs.
    + by left.
    + right. by left.
  - intros h e Hin Hrej. split.
    + eapply taskLog_in_log; try done. unfold taskLog.
      unfold rejection in Hrej.
      destruct (callHook a h attr) as [[err|] tr]; simpl in Hrej; [|done].
      destruct (isErrCallingWebhook err); simplify_eq.
      apply elem_of_app. right. by left.
    + pose proof (inv_pc _ _ _ _ HI) as Hp. rewrite Hpc in Hp.
      destruct Hp as [H0 ->].
      pose proof (inv_ch _ _ _ _ HI) as Hch. unfold collected in Hch.
      rewrite Hpc, (sentOf_all_exit _ _ _ _ (inv_len _ _ _ _ HI) H0) in Hch.
      assert (e ∈ errs s) as He.
      { rewrite Hch. apply rejections_elem. by exists h. }
      destruct (errs s) as [|e0 es] eqn:Herrs; [by apply elem_of_nil in He|].
      apply elem_of_cons in He as [->|He]; [by left|].
      right. rewrite Hlog. right. apply elem_of_app. right. simpl.
      apply list_elem_of_In, in_map. by apply list_elem_of_In.
Qed.

(** *** The snapshot *)

Lemma rejections_cons h hs :
  rejections a attr (h :: hs)
  = option_list (rejection a attr h) ++ rejections a attr hs.
Proof. unfold rejections. simpl. by destruct (rejection a attr h). Qed.

Lemma rejections_filter_denies hs :
  rejections a attr (filter (fun h => denies a attr h = true) hs)
  = rejections a attr hs.
Proof.
  induction hs as [|h hs IH]; [done|].
  rewrite filter_cons. case_decide as Hd.
  - by rewrite !rejections_cons, IH.
  - rewrite rejections_cons, IH, rejection_not_denies; [done|].
    by destruct (denies a attr h).
Qed.

Lemma rejections_Permutation hs hs' :
  hs ≡ₚ hs' -> rejections a attr hs ≡ₚ rejections a attr hs'.
Proof.
  unfold rejections. induction 1 as [|h l l' _ IH|h1 h2 l|l1 l2 l3 _ IH1 _ IH2];
    simpl.
  - done.
  - destruct (rejection a attr h); by rewrite IH.
  - destruct (rejection a attr h1), (rejection a attr h2); try done.
    apply perm_swap.
  - by rewrite IH1.
Qed.

Lemma possible_Permutation (l l' : list error) r :
  l ≡ₚ l' -> possible l r -> possible l' r.
Proof.
  intros Hperm. destruct r as [e|]; simpl.
  - by rewrite Hperm.
  - intros ->. symmetry in Hperm. by apply Permutation_nil_r in Hperm.
Qed.

End Dispatch.

Section Snapshot.

Context {W : Externals} (a : GenericAdmissionWebhook) (attr : Attributes).

(** X13: the results [Admit] can return depend on the snapshot only through
    the hooks in it that deny: listing the hooks in another order, or
    adding and removing hooks that do not deny (no matching rule, allowed,
    failed call), leaves the possible results of [Admit] the same. *)
Theorem Admit_snapshot_order_irrelevant hs hs' r :
  filter (fun h => denies a attr h = true) hs
  ≡ₚ filter (fun h => denies a attr h = true) hs' ->
  (exists sch,
     Admit (SetWebhookSource {| List := Ok hs |} a) attr sch = Some r) <->
  (exists sch,
     Admit (SetWebhookSource {| List := Ok hs' |} a) attr sch = Some r).
Proof.
  intros Hperm.
  assert (forall l l', 
            filter (fun h => denies a attr h = true) l
            ≡ₚ filter (fun h => denies a attr h = true) l' ->
            (exists sch,
               Admit (SetWebhookSource {| List := Ok l |} a) attr sch = Some r) ->
            exists sch,
              Admit (SetWebhookSource {| List := Ok l' |} a) attr sch = Some r)
    as Hdir.
  { intros l l' Hp (sch & HA).
    apply (Admit_possible_reached
             (SetWebhookSource {| List := Ok l' |} a) attr l' r eq_refl).
    apply (Admit_result_possible
             (SetWebhookSource {| List := Ok l |} a) attr l sch r eq_refl) in HA.
    change (possible (rejections a attr l) r) in HA.
    change (possible (rejections a attr l') r).
    rewrite <- (rejections_filter_denies a attr l) in HA.
    rewrite <- (rejections_filter_denies a attr l').
    eapply possible_Permutation; [|done]. by apply rejections_Permutation. }
  split; apply Hdir; [done|by symmetry].
Qed.

End Snapshot.



(** *** The setters *)


(** *** The further properties on the concrete cluster *)

Lemma Admit_possible_results_witness :
  List (hookSource (Demo.plugin (Ok [Demo.hQuota; Demo.hOk; Demo.hPolicy])))
  = Ok [Demo.hQuota; Demo.hOk; Demo.hPolicy] /\
  ((exists sch,
      Admit (W:=Demo.world)
        (Demo.plugin (Ok [Demo.hQuota; Demo.hOk; Demo.hPolicy]))
        Demo.createPod sch = Some None) <->
   [StatusError Demo.quota; StatusError Demo.policy] = []).
Proof.
  split; [reflexivity|].
  exact (Admit_possible_results (W:=Demo.world)
           (Demo.plugin (Ok [Demo.hQuota; Demo.hOk; Demo.hPolicy]))
           Demo.createPod [Demo.hQuota; Demo.hOk; Demo.hPolicy] None eq_refl).
Defined.

Lemma Admit_nil_iff_no_denial_witness :
  Admit (W:=Demo.world) (Demo.plugin (Ok [Demo.hDown; Demo.hOk]))
    Demo.createPod [Main; Main; Main; Main; Go 1; Go 0; Main] = Some None /\
  (@None error = None <->
   existsb (denies (W:=Demo.world) (Demo.plugin (Ok [Demo.hDown; Demo.hOk]))
              Demo.createPod) [Demo.hDown; Demo.hOk] = false).
Proof.
  split; [reflexivity|].
  exact (Admit_nil_iff_no_denial (W:=Demo.world)
           (Demo.plugin (Ok [Demo.hDown; Demo.hOk])) Demo.createPod
           [Demo.hDown; Demo.hOk] [Main; Main; Main; Main; Go 1; Go 0; Main]
           None eq_refl eq_refl).
Defined.

Lemma Admit_error_origin_witness :
  Admit (W:=Demo.world) (Demo.plugin (Ok [Demo.hDown; Demo.hMute]))
    Demo.createPod [Main; Main; Main; Main; Go 1; Go 0; Go 1; Main]
  = Some (Some (ErrorString
       ("admission webhook " +:+ Demo.demoQuote "mute" +:+
        " denied the request without explanation"))) /\
  isErrCallingWebhook
    (ErrorString ("admission webhook " +:+ Demo.demoQuote "mute" +:+
                  " denied the request without explanation")) = false.
Proof.
  split; [reflexivity|].
  exact (proj1 (Admit_error_origin (W:=Demo.world)
                  (Demo.plugin (Ok [Demo.hDown; Demo.hMute])) Demo.createPod
                  [Demo.hDown; Demo.hMute]
                  [Main; Main; Main; Main; Go 1; Go 0; Go 1; Main]
                  _ eq_refl eq_refl)).
Defined.

Lemma Admit_schedule_independent_witness :
  rejections (W:=Demo.world)
    (Demo.plugin (Ok [Demo.hOk; Demo.hPolicy; Demo.hDown])) Demo.createPod
    [Demo.hOk; Demo.hPolicy; Demo.hDown] = [StatusError Demo.policy] /\
  forall sch r,
    Admit (W:=Demo.world)
      (Demo.plugin (Ok [Demo.hOk; Demo.hPolicy; Demo.hDown]))
      Demo.createPod sch = Some r ->
    r = Some (StatusError Demo.policy).
Proof.
  split; [reflexivity|]. intros sch r.
  apply (Admit_schedule_independent (W:=Demo.world)
           (Demo.plugin (Ok [Demo.hOk; Demo.hPolicy; Demo.hDown]))
           Demo.createPod [Demo.hOk; Demo.hPolicy; Demo.hDown] sch r eq_refl).
  intros e1 e2 H1 H2.
  apply list_elem_of_singleton in H1. apply list_elem_of_singleton in H2.
  congruence.
Defined.

Lemma Admit_run_bounded_witness :
  exists s,
    exec (W:=Demo.world) (Demo.plugin (Ok [Demo.hQuota; Demo.hPolicy]))
      Demo.createPod [Main; Main; Main; Main; Go 1; Go 1; Go 0; Go 0; Main] init
    = Some s /\
    length [Main; Main; Main; Main; Go 1; Go 1; Go 0; Go 0; Main]
    <= 3 + 3 * length [Demo.hQuota; Demo.hPolicy].
Proof.
  eexists. split; [vm_compute; reflexivity|].
  refine (proj1 (Admit_run_bounded (W:=Demo.world)
                   (Demo.plugin (Ok [Demo.hQuota; Demo.hPolicy]))
                   Demo.createPod [Demo.hQuota; Demo.hPolicy]
                   [Main; Main; Main; Main; Go 1; Go 1; Go 0; Go 0; Main]
                   _ eq_refl _)).
  vm_compute; reflexivity.
Defined.

Lemma wait_group_counts_goroutines_witness :
  exists s,
    exec (W:=Demo.world) (Demo.plugin (Ok [Demo.hQuota; Demo.hOk]))
      Demo.createPod [Main; Main; Main; Go 1; Go 0] init = Some s /\
    wg s = 1 /\ wg s = live (tasks s).
Proof.
  eexists. split; [vm_compute; reflexivity|]. split; [reflexivity|].
  refine (proj1 (wait_group_counts_goroutines (W:=Demo.world)
                   (Demo.plugin (Ok [Demo.hQuota; Demo.hOk])) Demo.createPod
                   [Demo.hQuota; Demo.hOk] [Main; Main; Main; Go 1; Go 0] _
                   eq_refl _)).
  vm_compute; reflexivity.
Defined.

Lemma Admit_empty_snapshot_witness :
  List (hookSource (Demo.plugin (Ok []))) = Ok [] /\
  Admit (W:=Demo.world) (Demo.plugin (Ok [])) Demo.createPod [Main; Main; Main]
  = Some None.
Proof.
  split; [reflexivity|].
  exact (proj1 (Admit_empty_snapshot (W:=Demo.world) (Demo.plugin (Ok []))
                  Demo.createPod eq_refl)).
Defined.

Lemma callHook_call_error_attribution_witness :
  (callHook (W:=Demo.world) (Demo.plugin (Ok [Demo.hDown])) Demo.hDown
     Demo.createPod).1
  = Some (ErrCallingWebhook "down" (Some (ErrorString "connection refused"))) /\
  exists e,
    Some (ErrorString "connection refused") = Some e /\
    roundTrip (W:=Demo.world) (Demo.plugin (Ok [Demo.hDown])) Demo.createPod
      Demo.hDown = Err e /\
    Error (W:=Demo.world)
      (ErrCallingWebhook "down" (Some (ErrorString "connection refused")))
    = "failed calling admission webhook " +:+ Demo.demoQuote "down" +:+ ": " +:+
      Error (W:=Demo.world) e.
Proof.
  split; [reflexivity|].
  exact (proj2 (proj2 (callHook_call_error_attribution (W:=Demo.world)
                         (Demo.plugin (Ok [Demo.hDown])) Demo.createPod
                         Demo.hDown "down"
                         (Some (ErrorString "connection refused")) eq_refl))).
Defined.

Lemma callHook_rule_order_irrelevant_witness :
  (callHook (W:=Demo.world) (Demo.plugin (Ok [])) Demo.hPolicy Demo.createPod).1
  = (callHook (W:=Demo.world) (Demo.plugin (Ok []))
       (Demo.mkDemoHook "policy"
          [Demo.anyRule; Demo.podsRule; Demo.anyRule; Demo.nodesRule])
       Demo.createPod).1.
Proof.
  apply (callHook_rule_order_irrelevant (W:=Demo.world)
           (Demo.plugin (Ok [])) Demo.createPod Demo.hPolicy
           (Demo.mkDemoHook "policy"
              [Demo.anyRule; Demo.podsRule; Demo.anyRule; Demo.nodesRule]));
    [reflexivity|reflexivity| |];
    intros r; unfold Demo.hPolicy, Demo.mkDemoHook; cbn [Rules];
    rewrite !elem_of_cons, !elem_of_nil; tauto.
Defined.

Lemma Admit_evaluates_every_hook_once_witness :
  exists s,
    exec (W:=Demo.world)
      (Demo.plugin (Ok [Demo.hQuota; Demo.hLost; Demo.hOk; Demo.hQuotaNodes]))
      Demo.createPod
      [Main; Main; Main; Main; Main; Main; Go 3; Go 2; Go 1; Go 0; Go 0; Main]
      init = Some s /\
    pc s = MRet (Some (StatusError Demo.quota)) /\
    countPosts (log s) = 2.
Proof.
  eexists. split; [vm_compute; reflexivity|]. split; [vm_compute; reflexivity|].
  refine (eq_trans
    (proj2 (Admit_evaluates_every_hook_once (W:=Demo.world)
              (Demo.plugin
                 (Ok [Demo.hQuota; Demo.hLost; Demo.hOk; Demo.hQuotaNodes]))
              Demo.createPod
              [Demo.hQuota; Demo.hLost; Demo.hOk; Demo.hQuotaNodes]
              [Main; Main; Main; Main; Main; Main; Go 3; Go 2; Go 1; Go 0;
               Go 0; Main]
              _ _ eq_refl _ _)) _); vm_compute; reflexivity.
Defined.

Lemma Admit_reports_every_outcome_witness :
  exists s,
    exec (W:=Demo.world)
      (Demo.plugin (Ok [Demo.hQuota; Demo.hDown; Demo.hPolicy]))
      Demo.createPod
      [Main; Main; Main; Main; Main; Go 2; Go 1; Go 0; Go 2; Go 0; Main]
      init = Some s /\
    pc s = MRet (Some (StatusError Demo.policy)) /\
    EvWarnRejected "quota" (StatusError Demo.quota) ∈ log s /\
    (Some (StatusError Demo.policy) = Some (StatusError Demo.quota) \/
     EvHandleError (StatusError Demo.quota) ∈ log s).
Proof.
  eexists. split; [vm_compute; reflexivity|]. split; [vm_compute; reflexivity|].
  refine (proj2 (Admit_reports_every_outcome (W:=Demo.world)
                   (Demo.plugin (Ok [Demo.hQuota; Demo.hDown; Demo.hPolicy]))
                   Demo.createPod [Demo.hQuota; Demo.hDown; Demo.hPolicy]
                   [Main; Main; Main; Main; Main; Go 2; Go 1; Go 0; Go 2; Go 0;
                    Main]
                   _ _ eq_refl _ _) Demo.hQuota (StatusError Demo.quota) _ _).
  - vm_compute; reflexivity.
  - vm_compute; reflexivity.
  - by left.
  - vm_compute; reflexivity.
Defined.

Lemma Admit_snapshot_order_irrelevant_witness :
  (exists sch,
     Admit (W:=Demo.world)
       (SetWebhookSource
          {| List := Ok [Demo.hOk; Demo.hQuota; Demo.hDown; Demo.hPolicy] |}
          (Demo.plugin (Ok []))) Demo.createPod sch
     = Some (Some (StatusError Demo.policy))) <->
  (exists sch,
     Admit (W:=Demo.world)
       (SetWebhookSource {| List := Ok [Demo.hQuota; Demo.hPolicy] |}
          (Demo.plugin (Ok []))) Demo.createPod sch
     = Some (Some (StatusError Demo.policy))).
Proof.
  apply (Admit_snapshot_order_irrelevant (W:=Demo.world)
           (Demo.plugin (Ok [])) Demo.createPod
           [Demo.hOk; Demo.hQuota; Demo.hDown; Demo.hPolicy]
           [Demo.hQuota; Demo.hPolicy]).
  reflexivity.
Defined.
